(** * Lottus: verse store, share-link codec glue and playback sequencer

    A shallow embedding of the three revisions of the single-page
    application found in the repository:

    - [src/src/index.tsx]       (module [Rev1]),
    - [src/unnamed/part_001]    (module [Seg] at revision [part_001]),
    - [src/unnamed/part_002]    (module [Seg] at revision [part_002]).

    The verse-store reducer and the two URL effects are textually the same
    in the three revisions and are embedded once. *)

From Stdlib Require Import ZArith List String Ascii Bool Lia QArith.
From Stdlib Require Import Relations.Relation_Operators.
Import ListNotations.

Local Open Scope Z_scope.
Local Open Scope string_scope.
Local Open Scope list_scope.
Local Open Scope Z_scope.

Set Implicit Arguments.

(** ** JavaScript arrays

    Arrays are lists; indices are JavaScript numbers restricted to
    integers, hence [Z].  The three array methods the reducer uses are
    written with their treatment of negative and too large arguments. *)

Module JsArray.
Section Ops.
Context {A : Type}.

Definition len (l : list A) : Z := Z.of_nat (List.length l).

(** Relative index of [slice] and [splice]: a negative argument counts
    from the end, everything is clamped to [0 .. len]. *)
Definition relative (n i : Z) : Z :=
  if i <? 0 then Z.max (n + i) 0 else Z.min i n.

(** [l.slice(start, stop)]; the receiver is left untouched. *)
Definition slice (l : list A) (start stop : Z) : list A :=
  let k := relative (len l) start in
  let final := relative (len l) stop in
  firstn (Z.to_nat (final - k)) (skipn (Z.to_nat k) l).

(** [l.slice(start)]. *)
Definition slice_from (l : list A) (start : Z) : list A :=
  slice l start (len l).

(** [l.splice(start, deleteCount)]: the removed elements, and the
    receiver as the call leaves it (the method works in place). *)
Definition splice (l : list A) (start deleteCount : Z) : list A * list A :=
  let k := relative (len l) start in
  let dc := Z.min (Z.max deleteCount 0) (len l - k) in
  (firstn (Z.to_nat dc) (skipn (Z.to_nat k) l),
   firstn (Z.to_nat k) l ++ skipn (Z.to_nat (k + dc)) l).

(** [l.splice(start)]: everything from [start] on is removed. *)
Definition splice_from (l : list A) (start : Z) : list A * list A :=
  let k := relative (len l) start in
  splice l start (len l - k).

(** [l[i]]; [None] is [undefined]. *)
Definition get (l : list A) (i : Z) : option A :=
  if i <? 0 then None else nth_error l (Z.to_nat i).

End Ops.
End JsArray.

(** ** Verses

    [type Verse = { text: string; pause: number }].  The reducer can store
    an object that lacks a field (the [{} as Verse] cast), so a field is
    optional in the model: [None] is a property that is absent.
    [Partial<Verse>] has the same shape.  Pauses are integral
    milliseconds. *)

Record Verse : Type := mkVerse {
  text : option string;
  pause : option Z
}.

(** The object literal [{}]. *)
Definition empty_object : Verse := mkVerse None None.

(** [{ ...a, ...b }]. *)
Definition spread (a b : Verse) : Verse :=
  mkVerse (match text b with Some t => Some t | None => text a end)
          (match pause b with Some p => Some p | None => pause a end).

(** [x ?? d]. *)
Definition nullish {A} (x : option A) (d : A) : A :=
  match x with Some a => a | None => d end.

(** The argument of [updateVerses]:
    [{ index; verse: Partial<Verse> | null }] or [{ verses }]. *)
Inductive action : Type :=
| Update (index : Z) (verse : option Verse)
| Replace (verses : list Verse).

(** The reducer of [useReducer].  The second component is the array
    [verses] that was passed in, as the call leaves it: the delete branch
    calls [splice] on it twice, and the second call sees what the first
    one left. *)
Definition reducer_run (verses : list Verse) (a : action)
  : list Verse * list Verse :=
  match a with
  | Replace nextVerses => (nextVerses, verses)
  | Update index None =>
      let '(front, verses1) := JsArray.splice verses 0 index in
      let '(back, verses2) := JsArray.splice_from verses1 (index + 1) in
      (front ++ back, verses2)
  | Update index (Some verse) =>
      (JsArray.slice verses 0 index
         ++ [spread (nullish (JsArray.get verses index) empty_object) verse]
         ++ JsArray.slice_from verses (index + 1),
       verses)
  end.

Definition reducer (verses : list Verse) (a : action) : list Verse :=
  fst (reducer_run verses a).

(** The store operations as the buttons dispatch them. *)
Definition deleteVerse (verses : list Verse) (index : Z) : list Verse :=
  reducer verses (Update index None).

Definition updateVerse (verses : list Verse) (index : Z) (v : Verse)
  : list Verse :=
  reducer verses (Update index (Some v)).

(** "Add Verse": [updateVerses] with [index: verses.length] and
    [verse: { text: '', pause: 1000 }]. *)
Definition default_verse : Verse := mkVerse (Some "") (Some 1000).

Definition addVerse (verses : list Verse) : list Verse :=
  updateVerse verses (JsArray.len verses) default_verse.

(** "Clear": [updateVerses({ verses: [] })]. *)
Definition clear (verses : list Verse) : list Verse :=
  reducer verses (Replace []).

(** What the specification asks of a deletion: the element at [k] is
    removed and the rest keeps its order. *)
Definition remove_at {A} (k : nat) (l : list A) : list A :=
  firstn k l ++ skipn (S k) l.

(** ** Utterances

    [SpeechSynthesisUtterance] with the three properties the code sets;
    [UtteranceInfo] pairs it with the pause that follows it. *)

Record SpeechSynthesisUtterance : Type := mkUtterance {
  utext : string;
  rate : Q;
  pitch : Q
}.

Record UtteranceInfo : Type := mkInfo {
  utterance : SpeechSynthesisUtterance;
  info_pause : option Z
}.

(** [text || ' ']: [undefined] and the empty string are falsy. *)
Definition or_space (t : option string) : string :=
  match t with
  | None => " "
  | Some EmptyString => " "
  | Some s => s
  end.

(** [makeUtterance] of [index.tsx]. *)
Definition makeUtterance (verse : Verse) : UtteranceInfo :=
  mkInfo (mkUtterance (or_space (text verse)) 0.6 0.6) (pause verse).

(** [s.split(sep)] for a separator of one character.  Strings are
    sequences of code units; splitting at the comma does not depend on
    how the other characters are encoded. *)
Fixpoint split (sep : ascii) (s : string) : list string :=
  match s with
  | EmptyString => [EmptyString]
  | String c s' =>
      if Ascii.eqb c sep then EmptyString :: split sep s'
      else match split sep s' with
           | p :: ps => String c p :: ps
           | [] => [String c EmptyString]
           end
  end.

(** [parts.join(sep)], the inverse the lemmas compare [split] with. *)
Fixpoint join (sep : ascii) (parts : list string) : string :=
  match parts with
  | [] => EmptyString
  | [p] => p
  | p :: ps => (p ++ String sep (join sep ps))%string
  end.

(** How often the separator occurs in a string. *)
Fixpoint occurs (sep : ascii) (s : string) : nat :=
  match s with
  | EmptyString => 0
  | String c s' => ((if Ascii.eqb c sep then 1 else 0) + occurs sep s')%nat
  end.

(** [l.map((x, index) => f x index)]. *)
Fixpoint map_index {A B} (f : A -> nat -> B) (index : nat) (l : list A)
  : list B :=
  match l with
  | [] => []
  | x :: l' => f x index :: map_index f (S index) l'
  end.

Definition comma : ascii := ","%char.

(** The pause between the parts of one verse. *)
Definition segment_pause : Z := 300.

(** The pause that follows part [index] of [count] parts. *)
Definition pause_after (verse_pause : option Z) (count index : nat)
  : option Z :=
  if Nat.eqb (S index) count then verse_pause else Some segment_pause.

(** The two later revisions differ in the text of a part:
    [part ? `...${part}` : ' '] in [part_001], [part ? part : ' '] in
    [part_002]; in the buttons they disable; and in the Test button. *)
Inductive revision : Type := part_001 | part_002.

Definition part_text (rev : revision) (part : string) : string :=
  match part with
  | EmptyString => " "
  | _ => match rev with
         | part_001 => ("..." ++ part)%string
         | part_002 => part
         end
  end.

(** [makeUtterances]; [None] is the [TypeError] of [text.split] on a verse
    object without [text]. *)
Definition makeUtterances (rev : revision) (verse : Verse)
  : option (list UtteranceInfo) :=
  match text verse with
  | None => None
  | Some t =>
      let parts := split comma t in
      Some (map_index
              (fun part index =>
                 mkInfo (mkUtterance (part_text rev part) 0.6 0.6)
                        (if Z.of_nat index =? Z.of_nat (List.length parts) - 1
                         then pause verse else Some segment_pause))
              0%nat parts)
  end.

(** ** The share link

    [jsonURL('lzw')] is the codec of the json-url library: [compress]
    turns the object [{ verses, title }] into a URL-safe token,
    [decompress] returns a promise that is fulfilled with the decoded
    value or rejected.  The library is not part of the repository; the
    two effects are written over any such pair of functions.

    The decoded value is whatever the token holds, not only a document:
    the callback of [then] takes its properties [verses] and [title]
    without looking at them. *)

Record Document : Type := mkDocument {
  doc_verses : list Verse;
  doc_title : string
}.

Inductive settled (A : Type) : Type :=
| Fulfilled (a : A)
| Rejected.
Arguments Fulfilled {A} a.
Arguments Rejected {A}.

Module Page.

(** What the state variable [title] holds: a string, [undefined], or a
    value of another kind. *)
Inductive title_value : Type :=
| Title (s : string)
| NoTitle
| TitleOther.

(** What the store of the reducer holds: an array of verse objects, or
    another value that [if (nextVerses)] let through. *)
Inductive store : Type :=
| Stored (l : list Verse)
| StoredOther.

(** The property [verses] of a decoded value, as the reducer sees it: an
    array of verse objects; a falsy value ([undefined], also for a
    property that is not there, [null], [0], the empty string, [false]);
    any other value, which is truthy. *)
Inductive verses_value : Type :=
| Verses (l : list Verse)
| VersesFalsy
| VersesOther.

(** The value [decompress] is fulfilled with, as the parameter pattern
    [{ verses, title }] sees it: [null] and [undefined] have no
    properties and the pattern throws a [TypeError]; every other value
    gives the two properties, [undefined] where it has none (a number, a
    string, a boolean and an object without them give
    [Value VersesFalsy NoTitle]). *)
Inductive decoded : Type :=
| Nullish
| Value (verses : verses_value) (title : title_value).

Definition of_document (d : Document) : decoded :=
  Value (Verses (doc_verses d)) (Title (doc_title d)).

(** The object [{ verses, title }] given to [compress]. *)
Record payload : Type := mkPayload {
  p_verses : store;
  p_title : title_value
}.

Definition payload_of (d : Document) : payload :=
  mkPayload (Stored (doc_verses d)) (Title (doc_title d)).

(** The component state the two effects read and write, the path of
    [window.location] and the console. *)
Record t : Type := mk {
  title : title_value;
  verses : store;
  loaded : bool;
  pathname : string;
  console : list string
}.

(** The state of the first render: [useState('')], [useReducer(.., [])],
    [useState(false)]. *)
Definition initial (path : string) : t :=
  mk (Title "") (Stored []) false path [].


(** The characters of a URL-safe token: letters, digits, [-] and [_]. *)
Definition token_char (c : ascii) : bool :=
  let n := nat_of_ascii c in
  ((65 <=? n) && (n <=? 90))%nat || ((97 <=? n) && (n <=? 122))%nat
  || ((48 <=? n) && (n <=? 57))%nat || (n =? 45)%nat || (n =? 95)%nat.

Fixpoint token_chars (s : string) : bool :=
  match s with
  | EmptyString => true
  | String c r => token_char c && token_chars r
  end.

(** A token: not empty, of token characters only. *)
Definition is_token (s : string) : bool :=
  match s with
  | EmptyString => false
  | _ => token_chars s
  end.

(** The path up to and including its last slash: what is left of the
    base path when a relative URL is resolved against it. *)
Fixpoint dirname (path : string) : string :=
  match path with
  | EmptyString => EmptyString
  | String c r =>
      if (0 <? occurs "/" r)%nat then String c (dirname r)
      else if Ascii.eqb c "/" then String c EmptyString
      else EmptyString
  end.


Section Codec.
Variable compress : payload -> string.
Variable decompress : string -> settled decoded.

(** [window.history.replaceState({}, '', output)] for the token that
    [compress] returns: [output] is a relative URL of one segment (not
    empty, of token characters), so the browser resolves it against the
    address of the page and the token takes the place of the last
    segment of the path. *)
Definition replaceState (output : string) (p : t) : t :=
  mk (title p) (verses p) (loaded p)
     (dirname (pathname p) ++ output)%string (console p).




End Codec.
End Page.

(** ** The playback sequencer

    The page runs on one thread: a click handler, an ['end'] listener or a
    timer callback runs together with all the promise reactions it
    triggers before the next one starts.  A step of the machines below is
    one such turn.  The speech engine is its queue of utterances (the
    head is the one being spoken), each with the ['end'] listener the
    code attached; [cancel] empties the queue without firing ['end']
    (the utterances it removes get an ['error'] event, which the code
    does not listen to).
    A pending timer holds its callback.  Listeners and callbacks are the
    closures of the source in first-order form: what is still to run when
    the promise they resolve is resolved.

    The log lists, in order, what a run did and what happened to it. *)

Inductive entry : Type :=
| SetCurrentVerse (i : Z)
| SetIsPlaying (b : bool)
| Speak (u : SpeechSynthesisUtterance)
| Cancel
| SetTimeout (id : Z) (delay : option Z)
| ClearTimeout (id : Z)
| ConsoleLog (msg : string)
| Ended (u : SpeechSynthesisUtterance)
| Fired (id : Z).

(** The events of both machines.  A click on Play carries the array
    [verses] of the render the button belongs to; a click on Test carries
    the index of the card and its verse. *)
Inductive event : Type :=
| ClickPlay (verses : list Verse)
| ClickStop
| ClickTest (index : nat) (verse : Verse)
| UtteranceEnd
| TimerFire (id : Z).

(** The events that are not the user's. *)
Definition is_env (e : event) : bool :=
  match e with
  | UtteranceEnd | TimerFire _ => true
  | _ => false
  end.

(** [l.map((x, index) => (index, x))] from a first index on. *)
Fixpoint indexed {A} (index : nat) (l : list A) : list (nat * A) :=
  match l with
  | [] => []
  | x :: l' => (index, x) :: indexed (S index) l'
  end.

(** The utterances a log hands to the speech engine, in order. *)
Fixpoint speaks (l : list entry) : list SpeechSynthesisUtterance :=
  match l with
  | [] => []
  | Speak u :: l' => u :: speaks l'
  | _ :: l' => speaks l'
  end.

(** *** [index.tsx] *)

Module Rev1.

(** What resolving the promise of a [speak] call sets off: nothing for
    the Test button, the rest of the chain that [play] built for Play. *)
Inductive cont : Type :=
| KTest
| KPlay (rest : list (nat * UtteranceInfo)).

Record timer : Type := mkTimer {
  tid : Z;
  delay : option Z;
  callback : cont
}.

Record state : Type := mkState {
  isPlaying : bool;
  currentVerse : Z;
  currentTimeout : Z;
  queue : list (UtteranceInfo * cont);
  timers : list timer;
  next_timer : Z;
  log : list entry
}.

(** [useState(-1)], [useRef(false)], [useRef(-1)]; timer identifiers
    start at 1. *)
Definition initial : state := mkState false (-1) (-1) [] [] 1 [].

(** [speak(index, utteranceInfo)] with the continuation of its promise:
    the new state, or the reason of the rejection. *)
Definition speak (index : nat) (info : UtteranceInfo) (k : cont) (s : state)
  : state + string :=
  if isPlaying s then
    inl (mkState (isPlaying s) (Z.of_nat index) (currentTimeout s)
           (queue s ++ [(info, k)]) (timers s) (next_timer s)
           (log s ++ [SetCurrentVerse (Z.of_nat index);
                      Speak (utterance info)]))
  else inr "Not playing".

(** [.catch(console.log).finally(() => (isPlaying.current = false))]. *)
Definition settle (reason : option string) (s : state) : state :=
  mkState false (currentVerse s) (currentTimeout s) (queue s) (timers s)
    (next_timer s)
    (log s ++ match reason with
              | Some r => [ConsoleLog r; SetIsPlaying false]
              | None => [SetIsPlaying false]
              end).

(** The promise of a [speak] call was resolved. *)
Definition resume (k : cont) (s : state) : state :=
  match k with
  | KTest => s
  | KPlay [] => settle None s
  | KPlay ((index, info) :: rest) =>
      match speak index info (KPlay rest) s with
      | inl s' => s'
      | inr reason => settle (Some reason) s
      end
  end.

(** [play()]: the chain over [verses.map(makeUtterance)]. *)
Definition play (verses : list Verse) (s : state) : state :=
  resume (KPlay (indexed 0 (map makeUtterance verses))) s.

Definition set_isPlaying (b : bool) (s : state) : state :=
  mkState b (currentVerse s) (currentTimeout s) (queue s) (timers s)
    (next_timer s) (log s ++ [SetIsPlaying b]).

(** [clearTimeout(id)]. *)
Definition clearTimeout (id : Z) (s : state) : state :=
  mkState (isPlaying s) (currentVerse s) (currentTimeout s) (queue s)
    (filter (fun t => negb (tid t =? id)) (timers s)) (next_timer s)
    (log s ++ [ClearTimeout id]).

(** The Play button: [isPlaying.current = true; play()]. *)
Definition click_play (verses : list Verse) (s : state) : state :=
  play verses (set_isPlaying true s).

(** The Stop button:
    [isPlaying.current = false; clearTimeout(currentTimeout.current)]. *)
Definition click_stop (s : state) : state :=
  clearTimeout (currentTimeout s) (set_isPlaying false s).

(** The Test button: [isPlaying.current = true; speak(index)]. *)
Definition click_test (index : nat) (verse : Verse) (s : state) : state :=
  let s1 := set_isPlaying true s in
  match speak index (makeUtterance verse) KTest s1 with
  | inl s' => s'
  | inr _ => s1
  end.

(** The ['end'] listener of [speak]:
    [currentTimeout.current = setTimeout(resolve, utteranceInfo.pause);
     setCurrentVerse(-1)]. *)
Definition on_end (info : UtteranceInfo) (k : cont) (s : state) : state :=
  let id := next_timer s in
  mkState (isPlaying s) (-1) id (queue s)
    (timers s ++ [mkTimer id (info_pause info) k]) (id + 1)
    (log s ++ [Ended (utterance info); SetTimeout id (info_pause info);
               SetCurrentVerse (-1)]).

Definition dequeue (s : state) : state :=
  mkState (isPlaying s) (currentVerse s) (currentTimeout s) (tl (queue s))
    (timers s) (next_timer s) (log s).

Definition fire (id : Z) (s : state) : state :=
  mkState (isPlaying s) (currentVerse s) (currentTimeout s) (queue s)
    (filter (fun t => negb (tid t =? id)) (timers s)) (next_timer s)
    (log s ++ [Fired id]).

(** One turn; [None] when the event cannot happen in the state. *)
Definition step (s : state) (e : event) : option state :=
  match e with
  | ClickPlay verses => Some (click_play verses s)
  | ClickStop => Some (click_stop s)
  | ClickTest index verse => Some (click_test index verse s)
  | UtteranceEnd =>
      match queue s with
      | [] => None
      | (info, k) :: _ => Some (on_end info k (dequeue s))
      end
  | TimerFire id =>
      match find (fun t => tid t =? id) (timers s) with
      | None => None
      | Some t => Some (resume (callback t) (fire id s))
      end
  end.

(** A turn of the environment: the utterance being spoken ends, or a
    pending timer fires. *)
Definition env_step (s s' : state) : Prop :=
  exists e, is_env e = true /\ step s e = Some s'.

Definition env_reach : state -> state -> Prop :=
  clos_refl_trans_1n state env_step.

(** Utterances and timers that are pending. *)
Definition in_flight (s : state) : nat :=
  (List.length (queue s) + List.length (timers s))%nat.

(** Nothing pending, nothing highlighted. *)
Definition idle (s : state) : Prop :=
  queue s = [] /\ timers s = [] /\ currentVerse s = -1.

(** The log of the chain of [play] over [jobs] when nothing interferes,
    the first timer being [id]: per job the index is published, the
    utterance is handed to the engine, it ends, the timer of its pause is
    set, the index is cleared, the timer fires. *)
Fixpoint chain_log (id : Z) (jobs : list (nat * UtteranceInfo)) : list entry :=
  match jobs with
  | [] => [SetIsPlaying false]
  | (index, info) :: rest =>
      [SetCurrentVerse (Z.of_nat index); Speak (utterance info);
       Ended (utterance info); SetTimeout id (info_pause info);
       SetCurrentVerse (-1); Fired id]
        ++ chain_log (id + 1) rest
  end.

Definition play_log (id : Z) (verses : list Verse) : list entry :=
  SetIsPlaying true :: chain_log id (indexed 0 (map makeUtterance verses)).

(** The states of a run of [play] over [jobs] that nothing interferes
    with: a job is being spoken, the pause of a job is running, or the
    run is over. *)
Inductive shape (jobs : list (nat * UtteranceInfo)) (s : state) : Prop :=
| Speaking (before : list (nat * UtteranceInfo)) (index : nat)
    (info : UtteranceInfo) (rest : list (nat * UtteranceInfo)) :
    jobs = before ++ (index, info) :: rest ->
    queue s = [(info, KPlay rest)] -> timers s = [] ->
    currentVerse s = Z.of_nat index -> isPlaying s = true ->
    shape jobs s
| Pausing (before rest : list (nat * UtteranceInfo)) (t : timer) :
    jobs = before ++ rest ->
    queue s = [] -> timers s = [t] ->
    callback t = KPlay rest -> tid t = currentTimeout s ->
    currentVerse s = -1 -> isPlaying s = true ->
    shape jobs s
| Over :
    queue s = [] -> timers s = [] ->
    currentVerse s = -1 -> isPlaying s = false ->
    shape jobs s.

(** A run from [s0] is sequential with the log [expected]: whatever it
    reaches has at most one utterance or timer pending and a log that is
    a beginning of [expected], and it does reach a state with that log
    in which nothing is pending, nothing is highlighted and playing is
    off. *)
Definition sequential (s0 : state) (expected : list entry) : Prop :=
  (forall s, env_reach s0 s ->
             (in_flight s <= 1)%nat /\ exists l, expected = log s ++ l)
  /\ exists s, env_reach s0 s /\ log s = expected /\ in_flight s = 0%nat
               /\ isPlaying s = false /\ currentVerse s = -1.

End Rev1.

(** *** [part_001] and [part_002] *)

Module Seg.

(** What resolving the promise of a [speak] call sets off: the Test
    button's handler, or the rest of the chain of [play], which is the
    next index and the verses from that index on ([speak(index)] reads
    [verses[index]] when it is called). *)
Inductive jobcont : Type :=
| KTest
| KPlay (index : nat) (rest : list Verse).

(** What resolving the promise of one part sets off: the parts of the
    verse that are left, then the continuation of the verse. *)
Inductive cont : Type :=
| KSeg (rest : list UtteranceInfo) (k : jobcont).

Record timer : Type := mkTimer {
  tid : Z;
  delay : option Z;
  callback : cont
}.

Record state : Type := mkState {
  isPlaying : bool;
  currentVerse : Z;
  currentTimeout : Z;
  queue : list (UtteranceInfo * cont);
  timers : list timer;
  next_timer : Z;
  log : list entry
}.

(** [useState(-1)], [useState(false)], [useRef(-1)]. *)
Definition initial : state := mkState false (-1) (-1) [] [] 1 [].

Definition setIsPlaying (b : bool) (s : state) : state :=
  mkState b (currentVerse s) (currentTimeout s) (queue s) (timers s)
    (next_timer s) (log s ++ [SetIsPlaying b]).

Definition setCurrentVerse (i : Z) (s : state) : state :=
  mkState (isPlaying s) i (currentTimeout s) (queue s) (timers s)
    (next_timer s) (log s ++ [SetCurrentVerse i]).

(** One link of the inner chain of [speak]: the listener is attached and
    [speechSynthesis.speak(utterance)] is called. *)
Definition speak_part (info : UtteranceInfo) (k : cont) (s : state) : state :=
  mkState (isPlaying s) (currentVerse s) (currentTimeout s)
    (queue s ++ [(info, k)]) (timers s) (next_timer s)
    (log s ++ [Speak (utterance info)]).

(** [.catch(console.log).finally(() => setIsPlaying(false))]. *)
Definition settle (reason : option string) (s : state) : state :=
  mkState false (currentVerse s) (currentTimeout s) (queue s) (timers s)
    (next_timer s)
    (log s ++ match reason with
              | Some r => [ConsoleLog r; SetIsPlaying false]
              | None => [SetIsPlaying false]
              end).

Section Revision.
Variable rev : revision.

(** The chain of [play] from [index] on.  [speak(index)] builds the
    utterances of the verse (a [TypeError] rejects the chain), publishes
    the index and starts the first part; when the last part is done,
    [finally] clears the index and the chain goes on. *)
Fixpoint play_from (index : nat) (rest : list Verse) (s : state) : state :=
  match rest with
  | [] => settle None s
  | verse :: rest' =>
      match makeUtterances rev verse with
      | None => settle (Some "TypeError") s
      | Some infos =>
          let s1 := setCurrentVerse (Z.of_nat index) s in
          match infos with
          | [] => play_from (S index) rest' (setCurrentVerse (-1) s1)
          | info :: more =>
              speak_part info (KSeg more (KPlay (S index) rest')) s1
          end
      end
  end.

(** The promise of [speak] was resolved: [finally] clears the index, and
    what waited for the promise runs.  For the Test button of [part_002]
    that is [setIsPlaying(false)], a reaction on the promise itself,
    which runs before the [finally] of the inner chain. *)
Definition finish (k : jobcont) (s : state) : state :=
  match k with
  | KTest =>
      match rev with
      | part_001 => setCurrentVerse (-1) s
      | part_002 => setCurrentVerse (-1) (setIsPlaying false s)
      end
  | KPlay index rest => play_from index rest (setCurrentVerse (-1) s)
  end.

(** The promise of one part was resolved. *)
Definition resume (k : cont) (s : state) : state :=
  match k with
  | KSeg [] j => finish j s
  | KSeg (info :: more) j => speak_part info (KSeg more j) s
  end.

(** [play()]. *)
Definition play (verses : list Verse) (s : state) : state :=
  play_from 0 verses (setIsPlaying true s).

(** Whether the buttons follow [isPlaying]: [disabled={isPlaying}] on
    Play and Test, [disabled={!isPlaying}] on Stop, in [part_002] only.
    A click on a disabled button does nothing. *)
Definition disables : bool :=
  match rev with part_001 => false | part_002 => true end.

Definition click_play (verses : list Verse) (s : state) : state :=
  if disables && isPlaying s then s else play verses s.

(** [stop()]: [setIsPlaying(false); clearTimeout(currentTimeout.current);
    speechSynthesis.cancel(); setCurrentVerse(-1)]. *)
Definition stop (s : state) : state :=
  mkState false (-1) (currentTimeout s) []
    (filter (fun t => negb (tid t =? currentTimeout s)) (timers s))
    (next_timer s)
    (log s ++ [SetIsPlaying false; ClearTimeout (currentTimeout s); Cancel;
               SetCurrentVerse (-1)]).

Definition click_stop (s : state) : state :=
  if disables && negb (isPlaying s) then s else stop s.

(** The Test button: [setIsPlaying(true); speak(index)], with
    [.then(() => setIsPlaying(false))] in [part_002].  A [TypeError] of
    [makeUtterances] ends the handler after [setIsPlaying(true)]. *)
Definition click_test (index : nat) (verse : Verse) (s : state) : state :=
  if disables && isPlaying s then s
  else
    let s1 := setIsPlaying true s in
    match makeUtterances rev verse with
    | None => s1
    | Some infos =>
        resume (KSeg infos KTest) (setCurrentVerse (Z.of_nat index) s1)
    end.

(** The ['end'] listener of a part:
    [currentTimeout.current = setTimeout(resolve, pause)]. *)
Definition on_end (info : UtteranceInfo) (k : cont) (s : state) : state :=
  let id := next_timer s in
  mkState (isPlaying s) (currentVerse s) id (queue s)
    (timers s ++ [mkTimer id (info_pause info) k]) (id + 1)
    (log s ++ [Ended (utterance info); SetTimeout id (info_pause info)]).

Definition dequeue (s : state) : state :=
  mkState (isPlaying s) (currentVerse s) (currentTimeout s) (tl (queue s))
    (timers s) (next_timer s) (log s).

Definition fire (id : Z) (s : state) : state :=
  mkState (isPlaying s) (currentVerse s) (currentTimeout s) (queue s)
    (filter (fun t => negb (tid t =? id)) (timers s)) (next_timer s)
    (log s ++ [Fired id]).

(** One turn; [None] when the event cannot happen in the state. *)
Definition step (s : state) (e : event) : option state :=
  match e with
  | ClickPlay verses => Some (click_play verses s)
  | ClickStop => Some (click_stop s)
  | ClickTest index verse => Some (click_test index verse s)
  | UtteranceEnd =>
      match queue s with
      | [] => None
      | (info, k) :: _ => Some (on_end info k (dequeue s))
      end
  | TimerFire id =>
      match find (fun t => tid t =? id) (timers s) with
      | None => None
      | Some t => Some (resume (callback t) (fire id s))
      end
  end.

Definition env_step (s s' : state) : Prop :=
  exists e, is_env e = true /\ step s e = Some s'.

Definition env_reach : state -> state -> Prop :=
  clos_refl_trans_1n state env_step.

(** Any turn, the user's included. *)
Definition any_step (s s' : state) : Prop :=
  exists e, step s e = Some s'.

Definition reach : state -> state -> Prop :=
  clos_refl_trans_1n state any_step.

(** Nothing pending, nothing highlighted, and the Play button enabled. *)
Definition idle (s : state) : Prop :=
  queue s = [] /\ timers s = [] /\ currentVerse s = -1
  /\ disables && isPlaying s = false.

(** The log of the parts of one verse when nothing interferes, the first
    timer being [id]: a part is handed to the engine, it ends, the timer
    of its pause is set and fires. *)
Fixpoint parts_log (id : Z) (infos : list UtteranceInfo) : list entry :=
  match infos with
  | [] => []
  | info :: more =>
      [Speak (utterance info); Ended (utterance info);
       SetTimeout id (info_pause info); Fired id]
        ++ parts_log (id + 1) more
  end.

(** The log of the chain of [play] from [index] on. *)
Fixpoint chain_log (id : Z) (index : nat) (rest : list Verse) : list entry :=
  match rest with
  | [] => [SetIsPlaying false]
  | verse :: rest' =>
      match makeUtterances rev verse with
      | None => [ConsoleLog "TypeError"; SetIsPlaying false]
      | Some infos =>
          SetCurrentVerse (Z.of_nat index)
            :: parts_log id infos
            ++ SetCurrentVerse (-1)
            :: chain_log (id + Z.of_nat (List.length infos)) (S index) rest'
      end
  end.

Definition play_log (id : Z) (verses : list Verse) : list entry :=
  SetIsPlaying true :: chain_log id 0 verses.

(** The states of a run of [play] over [verses] that nothing interferes
    with: a part of a verse is being spoken, the pause of a part is
    running, or the run is over. *)
Inductive shape (verses : list Verse) (s : state) : Prop :=
| Speaking (before : list Verse) (verse : Verse) (rest : list Verse)
    (done : list UtteranceInfo) (info : UtteranceInfo)
    (more : list UtteranceInfo) :
    verses = before ++ verse :: rest ->
    makeUtterances rev verse = Some (done ++ info :: more) ->
    queue s = [(info, KSeg more (KPlay (S (List.length before)) rest))] ->
    timers s = [] ->
    currentVerse s = Z.of_nat (List.length before) -> isPlaying s = true ->
    shape verses s
| Pausing (before : list Verse) (verse : Verse) (rest : list Verse)
    (done : list UtteranceInfo) (info : UtteranceInfo)
    (more : list UtteranceInfo) (t : timer) :
    verses = before ++ verse :: rest ->
    makeUtterances rev verse = Some (done ++ info :: more) ->
    queue s = [] -> timers s = [t] ->
    delay t = info_pause info ->
    callback t = KSeg more (KPlay (S (List.length before)) rest) ->
    tid t = currentTimeout s ->
    currentVerse s = Z.of_nat (List.length before) -> isPlaying s = true ->
    shape verses s
| Over :
    queue s = [] -> timers s = [] ->
    currentVerse s = -1 -> isPlaying s = false ->
    shape verses s.

Definition sequential (s0 : state) (expected : list entry) : Prop :=
  (forall s, env_reach s0 s ->
             (List.length (queue s) + List.length (timers s) <= 1)%nat
             /\ exists l, expected = log s ++ l)
  /\ exists s, env_reach s0 s /\ log s = expected
               /\ queue s = [] /\ timers s = []
               /\ isPlaying s = false /\ currentVerse s = -1.

End Revision.

Definition in_flight (s : state) : nat :=
  (List.length (queue s) + List.length (timers s))%nat.

(** At most one run is under way: at most one utterance or timer is
    pending, none when playing is off, and a pending timer is the one
    [currentTimeout] names. *)
Definition one_run (s : state) : Prop :=
  (in_flight s <= 1)%nat
  /\ (isPlaying s = false -> in_flight s = 0%nat)
  /\ (forall t, In t (timers s) -> tid t = currentTimeout s).

End Seg.

(** The utterances of a verse in the later revisions, none when
    [makeUtterances] throws. *)
Definition verse_utterances (rev : revision) (verse : Verse)
  : list SpeechSynthesisUtterance :=
  match makeUtterances rev verse with
  | Some infos => map utterance infos
  | None => []
  end.

(** What [makeUtterances] is to speak for a verse, read off
    [text.split(',').map(..)]: one utterance for every part between the
    commas of the text, with the rate and the pitch of 0.6. *)
Definition spoken_parts (rev : revision) (verse : Verse)
  : list SpeechSynthesisUtterance :=
  match text verse with
  | Some t =>
      map (fun part => mkUtterance (part_text rev part) 0.6 0.6)
          (split comma t)
  | None => []
  end.

(** ** The document of the specification's example *)

Definition verse_A : Verse := mkVerse (Some "A") (Some 500).
Definition verse_B : Verse := mkVerse (Some "B") (Some 300).

(** A string that is empty or ends with a slash, as the directory part
    of a path is. *)
Fixpoint open_dir (d : string) : bool :=
  match d with
  | EmptyString => true
  | String c EmptyString => Ascii.eqb c "/"
  | String _ r => open_dir r
  end.

(** ** Codecs to try the effects on

    [Sample] is a codec of its own: the document is written as a list
    of numbers (lengths, character codes, tags and magnitudes) and each
    number in unary, as many [a] as it counts followed by [_], which
    keeps the token URL-safe; [decompress] rejects what is not such a
    token.  [number_decoder] fulfils the malformed token ["abc"] with a
    number, as a decoder does that reads the bytes of the token as a
    packed value, and rejects every other token. *)

Module Sample.

Fixpoint unary (n : nat) (rest : string) : string :=
  match n with
  | O => String "_" rest
  | S n' => String "a" (unary n' rest)
  end.

Fixpoint enc_nats (l : list nat) : string :=
  match l with
  | [] => EmptyString
  | n :: l' => unary n (enc_nats l')
  end.

Fixpoint dec_nats (s : string) (acc : nat) : option (list nat) :=
  match s with
  | EmptyString => if (acc =? 0)%nat then Some [] else None
  | String c r =>
      if Ascii.eqb c "a" then dec_nats r (S acc)
      else if Ascii.eqb c "_" then option_map (cons acc) (dec_nats r 0%nat)
      else None
  end.

Definition enc_string (s : string) : list nat :=
  List.length (list_ascii_of_string s)
  :: map nat_of_ascii (list_ascii_of_string s).

Definition enc_text (o : option string) : list nat :=
  match o with
  | None => [0%nat]
  | Some s => 1%nat :: enc_string s
  end.

Definition enc_pause (o : option Z) : list nat :=
  match o with
  | None => [0%nat]
  | Some z => if z <? 0 then [2%nat; Z.to_nat (- z)] else [1%nat; Z.to_nat z]
  end.

Definition enc_verse (v : Verse) : list nat :=
  enc_text (text v) ++ enc_pause (pause v).

Definition enc_document (d : Document) : list nat :=
  enc_string (doc_title d)
  ++ List.length (doc_verses d) :: flat_map enc_verse (doc_verses d).

Definition take_string (l : list nat) : option (string * list nat) :=
  match l with
  | [] => None
  | n :: r =>
      if (List.length r <? n)%nat then None
      else Some (string_of_list_ascii (map ascii_of_nat (firstn n r)),
                 skipn n r)
  end.

Definition take_text (l : list nat) : option (option string * list nat) :=
  match l with
  | O :: r => Some (None, r)
  | 1%nat :: r =>
      match take_string r with
      | Some (s, r') => Some (Some s, r')
      | None => None
      end
  | _ => None
  end.

Definition take_pause (l : list nat) : option (option Z * list nat) :=
  match l with
  | O :: r => Some (None, r)
  | 1%nat :: n :: r => Some (Some (Z.of_nat n), r)
  | 2%nat :: n :: r => Some (Some (- Z.of_nat n), r)
  | _ => None
  end.

Definition take_verse (l : list nat) : option (Verse * list nat) :=
  match take_text l with
  | Some (t, r) =>
      match take_pause r with
      | Some (p, r') => Some (mkVerse t p, r')
      | None => None
      end
  | None => None
  end.

Fixpoint take_verses (count : nat) (l : list nat)
  : option (list Verse * list nat) :=
  match count with
  | O => Some ([], l)
  | S count' =>
      match take_verse l with
      | Some (v, r) =>
          match take_verses count' r with
          | Some (vs, r') => Some (v :: vs, r')
          | None => None
          end
      | None => None
      end
  end.

Definition dec_document (l : list nat) : option Document :=
  match take_string l with
  | Some (t, n :: r) =>
      match take_verses n r with
      | Some (vs, []) => Some (mkDocument vs t)
      | _ => None
      end
  | _ => None
  end.

(** What the codec writes of an object whose properties are not a verse
    list and a string: nothing for that property. *)
Definition document_of (p : Page.payload) : Document :=
  mkDocument
    (match Page.p_verses p with
     | Page.Stored l => l
     | Page.StoredOther => []
     end)
    (match Page.p_title p with
     | Page.Title s => s
     | _ => EmptyString
     end).

Definition compress (p : Page.payload) : string :=
  enc_nats (enc_document (document_of p)).

Definition decompress (token : string) : settled Page.decoded :=
  match dec_nats token 0%nat with
  | Some l =>
      match dec_document l with
      | Some d => Fulfilled (Page.of_document d)
      | None => Rejected
      end
  | None => Rejected
  end.

End Sample.




(** ** What the page dispatches

    The actions the controls of the page send to the reducer when the
    store holds [verses]: Add Verse, the text area and the pause field
    of a card, Delete on a card, Clear.  A card exists for every index
    below the length. *)

Inductive ui_action (verses : list Verse) : action -> Prop :=
| ui_add :
    ui_action verses (Update (JsArray.len verses) (Some default_verse))
| ui_text (index : nat) (t : string) :
    (index < List.length verses)%nat ->
    ui_action verses (Update (Z.of_nat index) (Some (mkVerse (Some t) None)))
| ui_pause (index : nat) (p : Z) :
    (index < List.length verses)%nat ->
    ui_action verses (Update (Z.of_nat index) (Some (mkVerse None (Some p))))
| ui_delete (index : nat) :
    (index < List.length verses)%nat ->
    ui_action verses (Update (Z.of_nat index) None)
| ui_clear :
    ui_action verses (Replace []).

(** A verse object with both fields, as the type [Verse] promises. *)
Definition complete (verse : Verse) : Prop :=
  text verse <> None /\ pause verse <> None.

(** The delays a log hands to [setTimeout], in order. *)
Fixpoint timeouts (l : list entry) : list (option Z) :=
  match l with
  | [] => []
  | SetTimeout _ d :: l' => d :: timeouts l'
  | _ :: l' => timeouts l'
  end.

(** The pauses of the parts of a verse in the later revisions. *)
Definition verse_pauses (rev : revision) (verse : Verse)
  : list (option Z) :=
  match makeUtterances rev verse with
  | Some infos => map info_pause infos
  | None => []
  end.

(** The turns of a machine for a list of events, one after the other;
    [None] when one of them cannot happen. *)
Fixpoint run {S : Type} (step : S -> event -> option S) (s : S)
    (events : list event) : option S :=
  match events with
  | [] => Some s
  | e :: events' =>
      match step s e with
      | Some s' => run step s' events'
      | None => None
      end
  end.

(** ** A page load

    The effects in the order they run when the page opens: the
    [compress] effect of the first render, the [decompress] effect, and
    the [compress] effect once more when [loaded] has changed. *)

Module Load.
Section Codec.
Variable compress : Page.payload -> string.
Variable decompress : string -> settled Page.decoded.


End Codec.
End Load.

(** ** The cards

    The style of the card of verse [index]: the background is black for
    [currentVerse === index] ([index.tsx], [part_001]), the opacity is
    0.5 for [currentVerse > -1 && currentVerse !== index] (all three). *)

Module Card.

Definition highlighted (currentVerse : Z) (index : nat) : bool :=
  currentVerse =? Z.of_nat index.

Definition dimmed (currentVerse : Z) (index : nat) : bool :=
  (currentVerse >? -1) && negb (currentVerse =? Z.of_nat index).

End Card.

(** ** The service worker ([part_000])

    The default handler chooses by the path of the request: a strategy,
    and the path of the [url] it hands to it.  [defaultStrategy] is the
    [NetworkFirst] over the cache [assets], [cacheStrategy] the
    [CacheFirst] over the cache [images].  The two regular expressions
    test how the path ends. *)

Module Worker.

Inductive strategy : Type := NetworkFirst | CacheFirst.

(** [s] ends with [suffix]. *)
Fixpoint ends_with (suffix s : string) : bool :=
  match s with
  | EmptyString => String.eqb s suffix
  | String _ r => String.eqb s suffix || ends_with suffix r
  end.

(** [/(\.(js|css|map))$/.test(pathname)]. *)
Definition is_code (pathname : string) : bool :=
  ends_with ".js" pathname || ends_with ".css" pathname
  || ends_with ".map" pathname.

(** [/(\.(webp|gif|jp(e)?g|png|webmanifest))$/.test(pathname)]. *)
Definition is_image (pathname : string) : bool :=
  ends_with ".webp" pathname || ends_with ".gif" pathname
  || ends_with ".jpg" pathname || ends_with ".jpeg" pathname
  || ends_with ".png" pathname || ends_with ".webmanifest" pathname.

(** The function given to [setDefaultHandler]. *)
Definition defaultHandler (pathname : string) : strategy * string :=
  if is_code pathname then (NetworkFirst, pathname)
  else if is_image pathname then (CacheFirst, pathname)
  else if String.eqb pathname "/index.html" then (NetworkFirst, pathname)
  else (NetworkFirst, "/index.html").

End Worker.

(** * Properties *)

(** ** The reducer: lemmas *)

Section ReducerFacts.

Lemma spread_empty (v : Verse) : spread empty_object v = v.
Proof. destruct v as [[t|] [p|]]; reflexivity. Qed.

Lemma get_out_of_range (verses : list Verse) (index : Z) :
  JsArray.len verses <= index -> JsArray.get verses index = None.
Proof.
  unfold JsArray.get, JsArray.len. intros H.
  destruct (index <? 0) eqn:E; [reflexivity|].
  apply nth_error_None. lia.
Qed.

(** The array methods at the natural-number arguments the callers pass. *)
Lemma relative_nat (n k : nat) :
  JsArray.relative (Z.of_nat n) (Z.of_nat k) = Z.of_nat (Nat.min k n).
Proof.
  unfold JsArray.relative.
  destruct (Z.of_nat k <? 0) eqn:E; [apply Z.ltb_lt in E; lia|]. lia.
Qed.

Lemma relative_0 (n : nat) : JsArray.relative (Z.of_nat n) 0 = 0.
Proof. unfold JsArray.relative. cbn. lia. Qed.

Lemma firstn_min {A} (k : nat) (l : list A) :
  firstn (Nat.min k (List.length l)) l = firstn k l.
Proof.
  destruct (Nat.le_gt_cases k (List.length l)) as [L|G].
  - now rewrite Nat.min_l.
  - rewrite Nat.min_r by lia. now rewrite !firstn_all2 by lia.
Qed.

Lemma skipn_min {A} (k : nat) (l : list A) :
  skipn (Nat.min k (List.length l)) l = skipn k l.
Proof.
  destruct (Nat.le_gt_cases k (List.length l)) as [L|G].
  - now rewrite Nat.min_l.
  - rewrite Nat.min_r by lia. now rewrite !skipn_all2 by lia.
Qed.

Lemma slice_0_nat {A} (l : list A) (k : nat) :
  JsArray.slice l 0 (Z.of_nat k) = firstn k l.
Proof.
  unfold JsArray.slice, JsArray.len. rewrite relative_nat, relative_0.
  rewrite Z.sub_0_r, Nat2Z.id. cbn [Z.to_nat skipn].
  apply firstn_min.
Qed.

Lemma slice_from_nat {A} (l : list A) (k : nat) :
  JsArray.slice_from l (Z.of_nat k) = skipn k l.
Proof.
  unfold JsArray.slice_from, JsArray.slice, JsArray.len. rewrite !relative_nat.
  rewrite Nat.min_id, Nat2Z.id, skipn_min.
  apply firstn_all2. rewrite length_skipn. lia.
Qed.

Lemma splice_0_nat {A} (l : list A) (k : nat) :
  JsArray.splice l 0 (Z.of_nat k) = (firstn k l, skipn k l).
Proof.
  unfold JsArray.splice, JsArray.len. rewrite relative_0.
  cbn [Z.to_nat skipn firstn app].
  rewrite Z.sub_0_r, Z.max_l, Z.add_0_l by lia.
  replace (Z.min (Z.of_nat k) (Z.of_nat (List.length l)))
    with (Z.of_nat (Nat.min k (List.length l))) by lia.
  now rewrite Nat2Z.id, firstn_min, skipn_min.
Qed.

Lemma splice_from_nat {A} (l : list A) (k : nat) :
  JsArray.splice_from l (Z.of_nat k) = (skipn k l, firstn k l).
Proof.
  unfold JsArray.splice_from, JsArray.splice, JsArray.len. rewrite relative_nat.
  set (m := Nat.min k (List.length l)).
  assert (Hm : (m <= List.length l)%nat) by (unfold m; lia).
  rewrite Z.max_l, Z.min_id by lia.
  replace (Z.of_nat m + (Z.of_nat (List.length l) - Z.of_nat m))
    with (Z.of_nat (List.length l)) by lia.
  rewrite !Nat2Z.id. unfold m. rewrite skipn_min, firstn_min.
  rewrite skipn_all, app_nil_r. f_equal.
  apply firstn_all2. rewrite length_skipn. lia.
Qed.

(** What the delete branch returns: the second [splice] works on what the
    first one left of the array, so its [index + 1] is counted from the
    old position [index]. *)
Lemma delete_nat (verses : list Verse) (k : nat) :
  deleteVerse verses (Z.of_nat k)
  = firstn k verses ++ skipn (2 * k + 1) verses.
Proof.
  unfold deleteVerse, reducer, reducer_run.
  rewrite splice_0_nat.
  replace (Z.of_nat k + 1) with (Z.of_nat (S k)) by lia.
  rewrite splice_from_nat. cbn [fst]. rewrite skipn_skipn.
  do 2 f_equal. lia.
Qed.

Lemma update_nat (verses : list Verse) (k : nat) (v : Verse) :
  updateVerse verses (Z.of_nat k) v
  = firstn k verses
      ++ [spread (nullish (nth_error verses k) empty_object) v]
      ++ skipn (S k) verses.
Proof.
  unfold updateVerse, reducer, reducer_run. cbn [fst].
  rewrite slice_0_nat.
  replace (Z.of_nat k + 1) with (Z.of_nat (S k)) by lia.
  rewrite slice_from_nat. unfold JsArray.get.
  destruct (Z.of_nat k <? 0) eqn:E; [apply Z.ltb_lt in E; lia|].
  now rewrite Nat2Z.id.
Qed.

End ReducerFacts.

(** ** The reducer: claims *)

Section ReducerClaims.

(** C1.  Deleting a verse that is neither the first nor the last: on the
    three verses [a; b; c] the delete action for index 1 returns [[a]],
    where the deletion the specification describes is [[a; c]].  The
    second [splice] runs on the array the first one has already
    shortened, so the verses at [k+1 .. 2k] go as well; the array that
    was the state is left as [[b; c]]. *)
Theorem delete_middle_verse (a b c : Verse) :
  deleteVerse [a; b; c] 1 = [a]
  /\ remove_at 1 [a; b; c] = [a; c]
  /\ reducer_run [a; b; c] (Update 1 None) = ([a], [b; c]).
Proof. repeat split. Qed.

(** The same for every index: the result has the length the
    specification asks for only at the first and at the last verse. *)
Lemma delete_length (verses : list Verse) (k : nat) :
  (k < List.length verses)%nat ->
  (List.length (deleteVerse verses (Z.of_nat k))
   = k + (List.length verses - (2 * k + 1)))%nat.
Proof.
  intros Hk. rewrite delete_nat, length_app, length_firstn, length_skipn. lia.
Qed.

Lemma delete_first_or_last (verses : list Verse) (k : nat) :
  (k < List.length verses)%nat ->
  k = 0%nat \/ S k = List.length verses ->
  deleteVerse verses (Z.of_nat k) = remove_at k verses.
Proof.
  intros Hk [->|E]; rewrite delete_nat; unfold remove_at.
  - reflexivity.
  - rewrite !skipn_all2 by lia. reflexivity.
Qed.

(** C5, as the claim has it, fails: the Add Verse button updates at
    [index = length], which is out of range, and the list grows. *)
Lemma update_out_of_range_changes :
  ~ (forall (verses : list Verse) (index : Z) (v : Verse),
        ~ (0 <= index < JsArray.len verses) ->
        updateVerse verses index v = verses).
Proof.
  intros H. specialize (H [] 0 default_verse).
  assert (N : ~ (0 <= 0 < JsArray.len (@nil Verse))) by (cbn; lia).
  specialize (H N). discriminate H.
Qed.

(** C5, amended.  The reducer does not check the index.  At every index
    from the length on, an update appends the fields it is given as a
    new last verse and a delete returns the list as it is. *)
Theorem out_of_range_above (verses : list Verse) (index : Z) (v : Verse) :
  JsArray.len verses <= index ->
  updateVerse verses index v = verses ++ [v]
  /\ deleteVerse verses index = verses.
Proof.
  intros H. unfold JsArray.len in H.
  assert (E : index = Z.of_nat (Z.to_nat index)) by lia.
  rewrite E. set (k := Z.to_nat index).
  assert (Hk : (List.length verses <= k)%nat) by lia.
  split.
  - rewrite update_nat.
    rewrite firstn_all2, skipn_all2 by lia.
    replace (nth_error verses k) with (@None Verse)
      by (symmetry; apply nth_error_None; lia).
    cbn [nullish]. now rewrite spread_empty.
  - rewrite delete_nat.
    rewrite firstn_all2, skipn_all2 by lia. apply app_nil_r.
Qed.

Lemma out_of_range_above_witness :
  JsArray.len (@nil Verse) <= 0
  /\ addVerse [] = [default_verse] /\ deleteVerse [] 0 = [].
Proof.
  assert (H : JsArray.len (@nil Verse) <= 0) by (cbn; lia).
  split; [exact H|].
  exact (out_of_range_above [] default_verse (index := 0) H).
Defined.

End ReducerClaims.

(** ** Utterances: claims *)

Section UtteranceClaims.

Lemma split_not_nil (sep : ascii) (s : string) : split sep s <> [].
Proof.
  destruct s as [|c s]; cbn; [discriminate|].
  destruct (Ascii.eqb c sep); [discriminate|].
  destruct (split sep s); discriminate.
Qed.

Lemma split_clean (sep : ascii) (s : string) :
  occurs sep s = 0%nat -> split sep s = [s].
Proof.
  induction s as [|c s IH]; [reflexivity|].
  cbn. destruct (Ascii.eqb c sep); [discriminate|].
  intros H. now rewrite IH.
Qed.

(** The parts, joined by the separator, are the text. *)
Lemma join_split (sep : ascii) (s : string) : join sep (split sep s) = s.
Proof.
  induction s as [|c s IH]; [reflexivity|].
  cbn [split]. destruct (Ascii.eqb_spec c sep) as [->|N].
  - pose proof (split_not_nil sep s) as NE.
    destruct (split sep s) as [|p ps]; [contradiction|].
    cbn [join]. cbn in IH |- *. now rewrite IH.
  - pose proof (split_not_nil sep s) as NE.
    destruct (split sep s) as [|p ps]; [contradiction|].
    destruct ps as [|q qs]; cbn in IH |- *; now rewrite <- IH.
Qed.

(** One part more than there are separators. *)
Lemma split_length (sep : ascii) (s : string) :
  List.length (split sep s) = S (occurs sep s).
Proof.
  induction s as [|c s IH]; [reflexivity|].
  cbn [split occurs]. destruct (Ascii.eqb c sep).
  - cbn. now rewrite IH.
  - pose proof (split_not_nil sep s) as NE.
    destruct (split sep s) as [|p ps]; [contradiction|].
    cbn in IH |- *. exact IH.
Qed.

(** No part holds a separator. *)
Lemma split_parts_clean (sep : ascii) (s : string) :
  Forall (fun part => occurs sep part = 0%nat) (split sep s).
Proof.
  induction s as [|c s IH]; [repeat constructor|].
  cbn [split]. destruct (Ascii.eqb c sep) eqn:E.
  - constructor; [reflexivity|exact IH].
  - destruct (split sep s) as [|p ps];
      [repeat constructor; cbn; now rewrite E|].
    inversion IH as [|? ? Hp Hps]; subst.
    constructor; [cbn; now rewrite E, Hp|exact Hps].
Qed.

Lemma map_index_length {A B} (f : A -> nat -> B) (i : nat) (l : list A) :
  List.length (map_index f i l) = List.length l.
Proof.
  revert i. induction l as [|x l IH]; intros i; cbn; [|rewrite IH];
    reflexivity.
Qed.

Lemma map_index_nth {A B} (f : A -> nat -> B) (i n : nat) (l : list A) :
  nth_error (map_index f i l) n
  = option_map (fun x => f x (i + n)%nat) (nth_error l n).
Proof.
  revert i n. induction l as [|x l IH]; intros i [|n]; cbn; try reflexivity.
  - now rewrite Nat.add_0_r.
  - rewrite IH. now replace (S i + n)%nat with (i + S n)%nat by lia.
Qed.

Lemma map_index_In {A B} (f : A -> nat -> B) (i : nat) (l : list A) (y : B) :
  In y (map_index f i l) -> exists x n, In x l /\ y = f x n.
Proof.
  revert i. induction l as [|x l IH]; intros i; cbn; [tauto|].
  intros [<-|H]; [exists x, i; auto|].
  destruct (IH _ H) as (x' & n & Hx & ->). exists x', n; auto.
Qed.

Lemma part_text_not_empty (rev : revision) (part : string) :
  part_text rev part <> "".
Proof. destruct part, rev; cbn; discriminate. Qed.

(** C9.  In [part_001] and [part_002] the text of a verse is cut at the
    commas: there is one utterance per part, in order, one part more
    than there are commas, the parts joined by commas are the text and
    none of them holds a comma.  The utterance of every part but the
    last carries the pause of 300 ms, a constant of the code that is
    below the 1000 ms a new verse starts with; the last one carries the
    pause of the verse.  The ['end'] listener starts a timer with the
    pause the utterance carries. *)
Theorem verse_parts (rev : revision) (t : string) (p : option Z) :
  let parts := split comma t in
  exists infos,
    makeUtterances rev (mkVerse (Some t) p) = Some infos
    /\ List.length infos = List.length parts
    /\ List.length parts = S (occurs comma t)
    /\ join comma parts = t
    /\ Forall (fun part => occurs comma part = 0%nat) parts
    /\ (forall i, nth_error infos i
           = option_map
               (fun part =>
                  mkInfo (mkUtterance (part_text rev part) 0.6 0.6)
                         (pause_after p (List.length parts) i))
               (nth_error parts i))
    /\ segment_pause = 300
    /\ segment_pause < nullish (pause default_verse) 0
    /\ (forall info k s,
          Seg.timers (Seg.on_end info k s)
          = Seg.timers s
              ++ [Seg.mkTimer (Seg.next_timer s) (info_pause info) k]).
Proof.
  intros parts. eexists. split; [reflexivity|].
  fold parts. repeat split.
  - apply map_index_length.
  - apply split_length.
  - apply join_split.
  - apply split_parts_clean.
  - intros i. rewrite map_index_nth. cbn [Nat.add].
    destruct (nth_error parts i) as [part|] eqn:E; [|reflexivity].
    cbn [option_map]. do 2 f_equal. unfold pause_after.
    assert (Hi : (i < List.length parts)%nat)
      by (apply nth_error_Some; congruence).
    destruct (Nat.eqb_spec (S i) (List.length parts)) as [Q|Q].
    + replace (Z.of_nat i =? Z.of_nat (List.length parts) - 1) with true
        by (symmetry; apply Z.eqb_eq; lia). reflexivity.
    + replace (Z.of_nat i =? Z.of_nat (List.length parts) - 1) with false
        by (symmetry; apply Z.eqb_neq; lia). reflexivity.
Qed.

(** C10.  The utterance that [makeUtterance] of [index.tsx] builds has a
    text that is not empty, a single space when the verse has the empty
    text or none, and rate and pitch 0.6.  The same holds of every
    utterance that [makeUtterances] of the later revisions builds; for
    the empty text that is the one utterance of a space with the pause of
    the verse. *)
Theorem utterance_text_rate_pitch (verse : Verse) :
  let u := utterance (makeUtterance verse) in
  utext u <> ""
  /\ rate u = 0.6%Q /\ pitch u = 0.6%Q
  /\ (text verse = Some "" \/ text verse = None -> utext u = " ")
  /\ forall rev infos,
       makeUtterances rev verse = Some infos ->
       Forall (fun info =>
                 utext (utterance info) <> ""
                 /\ rate (utterance info) = 0.6%Q
                 /\ pitch (utterance info) = 0.6%Q) infos
       /\ infos <> []
       /\ (text verse = Some "" ->
           infos = [mkInfo (mkUtterance " " 0.6 0.6) (pause verse)]).
Proof.
  cbn zeta. repeat split.
  - destruct verse as [[[|c t]|] p]; cbn; discriminate.
  - intros [E|E]; cbn; now rewrite E.
  - revert H. unfold makeUtterances.
    destruct (text verse) as [t|]; [|discriminate].
    intros [= <-]. apply Forall_forall. intros info Hin.
    apply map_index_In in Hin. destruct Hin as (part & n & _ & ->).
    cbn. repeat split. apply part_text_not_empty.
  - revert H. unfold makeUtterances.
    destruct (text verse) as [t|]; [|discriminate].
    intros [= <-] E.
    apply (f_equal (@List.length _)) in E.
    rewrite map_index_length in E.
    now apply (split_not_nil comma t), length_zero_iff_nil.
  - intros E. revert H. unfold makeUtterances. rewrite E.
    intros [= <-]. reflexivity.
Qed.

Lemma utterance_text_rate_pitch_witness :
  makeUtterances part_001 (mkVerse (Some "") (Some 1000))
  = Some [mkInfo (mkUtterance " " 0.6 0.6) (Some 1000)]
  /\ [mkInfo (mkUtterance " " 0.6 0.6) (Some 1000)]
     = [mkInfo (mkUtterance " " 0.6 0.6) (Some 1000)].
Proof.
  split; [reflexivity|].
  refine (proj2 (proj2
    (proj2 (proj2 (proj2 (proj2
       (utterance_text_rate_pitch (mkVerse (Some "") (Some 1000))))))
       part_001 _ eq_refl)) eq_refl).
Defined.

End UtteranceClaims.

(** ** The share link: lemmas *)

Section LinkFacts.




Lemma dirname_open (path : string) : open_dir (Page.dirname path) = true.
Proof.
  induction path as [|c r IH]; [reflexivity|].
  cbn [Page.dirname].
  destruct (0 <? occurs "/" r)%nat eqn:E.
  - destruct (Page.dirname r) eqn:D; [|exact IH].
    exfalso. clear IH. apply Nat.ltb_lt in E.
    revert D E. clear. induction r as [|c r IH]; [cbn; lia|].
    cbn [Page.dirname occurs].
    destruct (0 <? occurs "/" r)%nat eqn:E; [discriminate|].
    destruct (Ascii.eqb c "/") eqn:C; [discriminate|].
    apply Nat.ltb_ge in E. lia.
  - destruct (Ascii.eqb c "/") eqn:C; cbn; [exact C|reflexivity].
Qed.

Lemma open_dir_slash (d : string) :
  open_dir d = true -> d <> EmptyString -> (0 < occurs "/" d)%nat.
Proof.
  induction d as [|c r IH]; [congruence|]. intros H _.
  destruct r as [|c' r'].
  - cbn in H. cbn. rewrite H. lia.
  - assert (L : (0 < occurs "/" (String c' r'))%nat)
      by (apply IH; [exact H|discriminate]).
    remember (String c' r') as r. cbn [occurs]. lia.
Qed.



(** The sample codec inverts itself and writes tokens. *)
Lemma sample_dec_unary (n acc : nat) (rest : string) :
  Sample.dec_nats (Sample.unary n rest) acc
  = option_map (cons (acc + n)%nat) (Sample.dec_nats rest 0%nat).
Proof.
  revert acc. induction n as [|n IH]; intros acc; cbn.
  - now rewrite Nat.add_0_r.
  - rewrite IH. now rewrite Nat.add_succ_r.
Qed.

Lemma sample_dec_enc_nats (l : list nat) :
  Sample.dec_nats (Sample.enc_nats l) 0%nat = Some l.
Proof.
  induction l as [|n l IH]; cbn; [reflexivity|].
  rewrite sample_dec_unary, IH. reflexivity.
Qed.

Lemma sample_take_string (s : string) (rest : list nat) :
  Sample.take_string (Sample.enc_string s ++ rest) = Some (s, rest).
Proof.
  unfold Sample.take_string, Sample.enc_string. cbn [app].
  set (cs := list_ascii_of_string s).
  assert (L : List.length (map nat_of_ascii cs) = List.length cs)
    by apply length_map.
  replace (List.length (map nat_of_ascii cs ++ rest) <? List.length cs)%nat
    with false
    by (symmetry; apply Nat.ltb_ge; rewrite length_app; lia).
  rewrite <- L at 1. rewrite firstn_app, firstn_all, Nat.sub_diag.
  cbn [firstn]. rewrite app_nil_r.
  rewrite <- L. rewrite skipn_app, skipn_all, Nat.sub_diag. cbn [skipn app].
  rewrite map_map.
  rewrite (map_ext (fun x => ascii_of_nat (nat_of_ascii x)) (fun x => x))
    by apply ascii_nat_embedding.
  rewrite map_id. unfold cs. now rewrite string_of_list_ascii_of_string.
Qed.

Lemma sample_take_verse (v : Verse) (rest : list nat) :
  Sample.take_verse (Sample.enc_verse v ++ rest) = Some (v, rest).
Proof.
  destruct v as [t p]. unfold Sample.take_verse, Sample.enc_verse. cbn [text pause].
  rewrite <- app_assoc.
  assert (T : Sample.take_text (Sample.enc_text t ++ Sample.enc_pause p ++ rest)
              = Some (t, Sample.enc_pause p ++ rest)).
  { destruct t as [s|]; [|reflexivity].
    unfold Sample.enc_text, Sample.take_text. cbn [app].
    now rewrite sample_take_string. }
  rewrite T.
  assert (P : Sample.take_pause (Sample.enc_pause p ++ rest) = Some (p, rest)).
  { destruct p as [z|]; cbn; [|reflexivity].
    destruct (z <? 0) eqn:E; cbn.
    - apply Z.ltb_lt in E. do 3 f_equal. lia.
    - apply Z.ltb_ge in E. do 3 f_equal. lia. }
  now rewrite P.
Qed.

Lemma sample_take_verses (vs : list Verse) (rest : list nat) :
  Sample.take_verses (List.length vs) (flat_map Sample.enc_verse vs ++ rest)
  = Some (vs, rest).
Proof.
  induction vs as [|v vs IH]; cbn; [reflexivity|].
  rewrite <- app_assoc, sample_take_verse, IH. reflexivity.
Qed.

Lemma sample_dec_enc_document (d : Document) :
  Sample.dec_document (Sample.enc_document d) = Some d.
Proof.
  destruct d as [vs t]. unfold Sample.dec_document, Sample.enc_document.
  cbn [doc_title doc_verses]. rewrite sample_take_string.
  rewrite <- (app_nil_r (flat_map Sample.enc_verse vs)).
  now rewrite sample_take_verses.
Qed.

Lemma sample_round_trip (d : Document) :
  Sample.decompress (Sample.compress (Page.payload_of d))
  = Fulfilled (Page.of_document d).
Proof.
  unfold Sample.decompress, Sample.compress.
  rewrite sample_dec_enc_nats.
  replace (Sample.document_of (Page.payload_of d)) with d
    by (destruct d; reflexivity).
  now rewrite sample_dec_enc_document.
Qed.

Lemma sample_token_chars (l : list nat) :
  Page.token_chars (Sample.enc_nats l) = true.
Proof.
  induction l as [|n l IH]; cbn; [reflexivity|].
  induction n as [|n IHn]; cbn; [exact IH|exact IHn].
Qed.

Lemma sample_token (p : Page.payload) :
  Page.is_token (Sample.compress p) = true.
Proof.
  unfold Sample.compress, Sample.enc_document, Sample.enc_string.
  cbn [app Sample.enc_nats].
  set (n := List.length _). set (r := Sample.enc_nats _).
  assert (T : Page.token_chars (Sample.unary n r) = true).
  { subst r. exact (sample_token_chars (n :: _)). }
  destruct n; cbn in *; exact T.
Qed.

End LinkFacts.

(** ** The share link: claims *)

Section CodecClaims.
Variable compress : Page.payload -> string.
Variable decompress : string -> settled Page.decoded.



End CodecClaims.




(** ** Runs of a machine whose turns are determined

    Shared by the two sequencers: when an invariant leaves every state
    at most one next state, whatever a run reaches lies on the way to the
    state it ends in, and its log is the beginning of the final log. *)

Section Determined.
Variable state : Type.
Variable turn : state -> state -> Prop.
Variable log : state -> list entry.
Variable inv : state -> Prop.

Hypothesis inv_turn : forall s s', inv s -> turn s s' -> inv s'.
Hypothesis turn_determined :
  forall s s1 s2, inv s -> turn s s1 -> turn s s2 -> s1 = s2.
Hypothesis log_turn : forall s s', turn s s' -> exists l, log s' = log s ++ l.

Lemma run_trans (a b c : state) :
  clos_refl_trans_1n state turn a b ->
  clos_refl_trans_1n state turn b c ->
  clos_refl_trans_1n state turn a c.
Proof.
  induction 1 as [|a b' b Hab Hbb IH]; [auto|].
  intros Hc. eapply rt1n_trans; eauto.
Qed.

Lemma run_inv (a b : state) :
  inv a -> clos_refl_trans_1n state turn a b -> inv b.
Proof. intros Ha H. induction H; eauto. Qed.

Lemma run_log (a b : state) :
  clos_refl_trans_1n state turn a b -> exists l, log b = log a ++ l.
Proof.
  induction 1 as [a|a b c Hab Hbc [l IH]].
  - exists []. now rewrite app_nil_r.
  - destruct (log_turn Hab) as [l0 E]. exists (l0 ++ l).
    now rewrite IH, E, app_assoc.
Qed.

Lemma run_meets_end (s a b : state) :
  inv s ->
  clos_refl_trans_1n state turn s a ->
  clos_refl_trans_1n state turn s b ->
  (forall c, ~ turn b c) ->
  clos_refl_trans_1n state turn a b.
Proof.
  intros Hs Ha. revert b Hs.
  induction Ha as [s|s s1 a Hs1 Ha IH]; intros b Hs Hb Hend; [exact Hb|].
  destruct Hb as [|s2 b Hs2 Hb].
  - destruct (Hend _ Hs1).
  - assert (s1 = s2) by eauto. subst s2.
    apply IH; eauto.
Qed.

Lemma run_log_prefix (s a b : state) :
  inv s ->
  clos_refl_trans_1n state turn s a ->
  clos_refl_trans_1n state turn s b ->
  (forall c, ~ turn b c) ->
  exists l, log b = log a ++ l.
Proof. intros. apply run_log. eapply run_meets_end; eauto. Qed.

End Determined.

(** ** The sequencer of [index.tsx]: lemmas *)

Section Rev1Facts.
Import Rev1.

Lemma r1_env_step_cases (s s' : state) :
  env_step s s' ->
  (exists info k q, queue s = (info, k) :: q
                    /\ s' = on_end info k (dequeue s))
  \/ (exists id t, find (fun t => tid t =? id) (timers s) = Some t
                   /\ s' = resume (callback t) (fire id s)).
Proof.
  intros (e & He & Hs). destruct e; try discriminate He; cbn in Hs.
  - left. destruct (queue s) as [|[info k] q] eqn:E; [discriminate|].
    injection Hs as <-. eauto.
  - right. destruct (find _ (timers s)) as [t|] eqn:E; [|discriminate].
    injection Hs as <-. eauto.
Qed.

Lemma r1_find_single (t t' : timer) (id : Z) :
  find (fun t => tid t =? id) [t] = Some t' -> t' = t /\ tid t = id.
Proof.
  cbn. destruct (Z.eqb_spec (tid t) id); [|discriminate].
  intros [= <-]. auto.
Qed.

Lemma r1_filter_single (t : timer) :
  filter (fun t' => negb (tid t' =? tid t)) [t] = [].
Proof. cbn. now rewrite Z.eqb_refl. Qed.

(** A run stays within its three shapes. *)
Lemma r1_shape_step (jobs : list (nat * UtteranceInfo)) (s s' : state) :
  shape jobs s -> env_step s s' -> shape jobs s'.
Proof.
  intros Hs Hstep.
  destruct (r1_env_step_cases Hstep)
    as [(info' & k & q & Hq & ->)|(id & t' & Hf & ->)];
    destruct Hs as [before index info rest Hj Hqs Ht Hc Hp
                   |before rest t Hj Hqs Ht Hcb Hid Hc Hp
                   |Hqs Ht Hc Hp];
    try (rewrite Hqs in Hq; discriminate Hq);
    try (rewrite Ht in Hf; discriminate Hf).
  - rewrite Hqs in Hq. injection Hq as <- <- <-.
    apply Pausing with (before := before ++ [(index, info)]) (rest := rest)
                       (t := mkTimer (next_timer s) (info_pause info)
                               (KPlay rest));
      cbn; try reflexivity; try assumption.
    + now rewrite <- app_assoc.
    + now rewrite Hqs.
    + now rewrite Ht.
  - rewrite Ht in Hf. apply r1_find_single in Hf. destruct Hf as [-> <-].
    rewrite Hcb. destruct rest as [|[index info] rest].
    + apply Over; cbn; try reflexivity; try assumption.
      rewrite Ht. apply r1_filter_single.
    + cbn. unfold speak. cbn. rewrite Hp.
      apply Speaking with (before := before) (index := index) (info := info)
                          (rest := rest); cbn; try assumption; try reflexivity.
      * now rewrite Hqs.
      * rewrite Ht. apply r1_filter_single.
Qed.

Lemma r1_shape_determined (jobs : list (nat * UtteranceInfo))
    (s s1 s2 : state) :
  shape jobs s -> env_step s s1 -> env_step s s2 -> s1 = s2.
Proof.
  intros Hs H1 H2.
  destruct (r1_env_step_cases H1)
    as [(i1 & k1 & q1 & Hq1 & ->)|(id1 & t1 & Hf1 & ->)];
    destruct (r1_env_step_cases H2)
      as [(i2 & k2 & q2 & Hq2 & ->)|(id2 & t2 & Hf2 & ->)].
  - rewrite Hq1 in Hq2. now injection Hq2 as <- <- <-.
  - destruct Hs as [? ? ? ? _ Hqs Ht _ _|? ? ? _ Hqs Ht _ _ _ _|Hqs Ht _ _];
      try (rewrite Hqs in Hq1; discriminate Hq1);
      rewrite Ht in Hf2; discriminate Hf2.
  - destruct Hs as [? ? ? ? _ Hqs Ht _ _|? ? ? _ Hqs Ht _ _ _ _|Hqs Ht _ _];
      try (rewrite Hqs in Hq2; discriminate Hq2);
      rewrite Ht in Hf1; discriminate Hf1.
  - destruct Hs as [? ? ? ? _ Hqs Ht _ _|? ? t _ Hqs Ht _ _ _ _|Hqs Ht _ _];
      try (rewrite Ht in Hf1; discriminate Hf1).
    rewrite Ht in Hf1, Hf2.
    apply r1_find_single in Hf1, Hf2.
    destruct Hf1 as [-> <-], Hf2 as [-> <-]. reflexivity.
Qed.

Lemma r1_shape_over_stuck (s s' : state) :
  queue s = [] -> timers s = [] -> ~ env_step s s'.
Proof.
  intros Hq Ht Hstep.
  destruct (r1_env_step_cases Hstep)
    as [(info & k & q & Hq' & _)|(id & t & Hf & _)].
  - rewrite Hq in Hq'. discriminate.
  - rewrite Ht in Hf. discriminate.
Qed.

Lemma r1_resume_log (k : cont) (s : state) :
  exists l, log (resume k s) = log s ++ l.
Proof.
  destruct k as [|[|[index info] rest]]; cbn.
  - exists []. now rewrite app_nil_r.
  - eauto.
  - unfold speak. destruct (isPlaying s); cbn; eauto.
Qed.

Lemma r1_step_log (s s' : state) :
  env_step s s' -> exists l, log s' = log s ++ l.
Proof.
  intros Hstep.
  destruct (r1_env_step_cases Hstep)
    as [(info & k & q & _ & ->)|(id & t & _ & ->)].
  - cbn. eauto.
  - destruct (r1_resume_log (callback t) (fire id s)) as [l E].
    rewrite E. cbn. rewrite <- app_assoc. eauto.
Qed.

(** The chain runs to its end, and this is its log. *)
Lemma r1_chain_runs (rest : list (nat * UtteranceInfo)) :
  forall s,
    queue s = [] -> timers s = [] -> isPlaying s = true ->
    currentVerse s = -1 ->
    exists s',
      env_reach (resume (KPlay rest) s) s'
      /\ log s' = log s ++ chain_log (next_timer s) rest
      /\ queue s' = [] /\ timers s' = []
      /\ isPlaying s' = false /\ currentVerse s' = -1.
Proof.
  induction rest as [|[index info] rest IH]; intros s Hq Ht Hp Hc.
  - exists (settle None s). cbn. repeat split; auto. apply rt1n_refl.
  - set (s1 := resume (KPlay ((index, info) :: rest)) s).
    assert (E1 : s1 = mkState true (Z.of_nat index) (currentTimeout s)
                        [(info, KPlay rest)] [] (next_timer s)
                        (log s ++ [SetCurrentVerse (Z.of_nat index);
                                   Speak (utterance info)])).
    { unfold s1. cbn. unfold speak. now rewrite Hp, Hq, Ht. }
    set (s2 := on_end info (KPlay rest) (dequeue s1)).
    set (s3 := mkState true (-1) (next_timer s) [] [] (next_timer s + 1)
                 (((log s ++ [SetCurrentVerse (Z.of_nat index);
                              Speak (utterance info)])
                     ++ [Ended (utterance info);
                         SetTimeout (next_timer s) (info_pause info);
                         SetCurrentVerse (-1)])
                    ++ [Fired (next_timer s)])).
    assert (E3 : fire (next_timer s) s2 = s3).
    { unfold s3, s2, fire, on_end, dequeue. rewrite E1. cbn.
      now rewrite Z.eqb_refl. }
    destruct (IH s3) as (s' & Hreach & Hlog & Hrest); try reflexivity.
    exists s'. split; [|split; [|exact Hrest]].
    + apply rt1n_trans with (y := s2).
      { exists UtteranceEnd. split; [reflexivity|].
        unfold s2. rewrite E1. reflexivity. }
      apply rt1n_trans with (y := resume (KPlay rest) s3); [|exact Hreach].
      exists (TimerFire (next_timer s)). split; [reflexivity|].
      rewrite <- E3. unfold s2, on_end, dequeue. rewrite E1.
      unfold step. cbn [timers find tid next_timer app].
      rewrite Z.eqb_refl. reflexivity.
    + rewrite Hlog. cbn. rewrite <- !app_assoc. reflexivity.
Qed.

Lemma r1_click_play_shape (verses : list Verse) (s : state) :
  idle s ->
  shape (indexed 0 (map makeUtterance verses)) (click_play verses s).
Proof.
  intros (Hq & Ht & Hc). unfold click_play, play.
  destruct (indexed 0 (map makeUtterance verses)) as [|[index info] rest] eqn:E.
  - apply Over; cbn; try reflexivity; assumption.
  - cbn. apply Speaking with (before := []) (index := index) (info := info)
                             (rest := rest);
      cbn; try reflexivity; try assumption.
    now rewrite Hq.
Qed.

End Rev1Facts.

(** ** The sequencer of [part_001] and [part_002]: lemmas *)

Section SegFacts.
Import Seg.
Variable rev : revision.

Lemma sg_env_step_cases (s s' : state) :
  env_step rev s s' ->
  (exists info k q, queue s = (info, k) :: q
                    /\ s' = on_end info k (dequeue s))
  \/ (exists id t, find (fun t => tid t =? id) (timers s) = Some t
                   /\ s' = resume rev (callback t) (fire id s)).
Proof.
  intros (e & He & Hs). destruct e; try discriminate He; cbn in Hs.
  - left. destruct (queue s) as [|[info k] q] eqn:E; [discriminate|].
    injection Hs as <-. eauto.
  - right. destruct (find _ (timers s)) as [t|] eqn:E; [|discriminate].
    injection Hs as <-. eauto.
Qed.

Lemma sg_find_single (t t' : timer) (id : Z) :
  find (fun t => tid t =? id) [t] = Some t' -> t' = t /\ tid t = id.
Proof.
  cbn. destruct (Z.eqb_spec (tid t) id); [|discriminate].
  intros [= <-]. auto.
Qed.

Lemma sg_filter_single (t : timer) :
  filter (fun t' => negb (tid t' =? tid t)) [t] = [].
Proof. cbn. now rewrite Z.eqb_refl. Qed.

Lemma makeUtterances_not_nil (verse : Verse) :
  makeUtterances rev verse <> Some [].
Proof.
  unfold makeUtterances. destruct (text verse) as [t|]; [|discriminate].
  intros [= E]. apply (f_equal (@List.length _)) in E.
  rewrite map_index_length in E.
  now apply (split_not_nil comma t), length_zero_iff_nil.
Qed.

(** The chain from a verse on starts its first part, or ends the run. *)
Lemma sg_play_from_shape (verses before rest : list Verse) (s : state) :
  verses = before ++ rest ->
  queue s = [] -> timers s = [] -> isPlaying s = true ->
  currentVerse s = -1 ->
  shape rev verses (play_from rev (List.length before) rest s).
Proof.
  intros Hv Hq Ht Hp Hc. destruct rest as [|verse rest]; cbn.
  - apply Over; cbn; auto.
  - destruct (makeUtterances rev verse) as [[|info more]|] eqn:E.
    + destruct (@makeUtterances_not_nil verse E).
    + apply Speaking with (before := before) (verse := verse) (rest := rest)
                          (done := []) (info := info) (more := more);
        cbn; auto. now rewrite Hq.
    + apply Over; cbn; auto.
Qed.

Lemma sg_shape_step (verses : list Verse) (s s' : state) :
  shape rev verses s -> env_step rev s s' -> shape rev verses s'.
Proof.
  intros Hs Hstep.
  destruct (sg_env_step_cases Hstep)
    as [(info' & k & q & Hq & ->)|(id & t' & Hf & ->)];
    destruct Hs as [before verse rest done info more Hv Hm Hqs Ht Hc Hp
                   |before verse rest done info more t
                      Hv Hm Hqs Ht Hd Hcb Hid Hc Hp
                   |Hqs Ht Hc Hp];
    try (rewrite Hqs in Hq; discriminate Hq);
    try (rewrite Ht in Hf; discriminate Hf).
  - rewrite Hqs in Hq. injection Hq as <- <- <-.
    apply Pausing with (before := before) (verse := verse) (rest := rest)
                       (done := done) (info := info) (more := more)
                       (t := mkTimer (next_timer s) (info_pause info)
                               (KSeg more
                                  (KPlay (S (List.length before)) rest)));
      cbn; auto.
    + now rewrite Hqs.
    + now rewrite Ht.
  - rewrite Ht in Hf. apply sg_find_single in Hf. destruct Hf as [-> <-].
    rewrite Hcb. destruct more as [|next more].
    + cbn [resume finish].
      replace (S (List.length before))
        with (List.length (before ++ [verse]))
        by (rewrite length_app; cbn; lia).
      apply sg_play_from_shape; cbn; auto.
      * now rewrite <- app_assoc.
      * rewrite Ht. apply sg_filter_single.
    + cbn [resume].
      apply Speaking with (before := before) (verse := verse) (rest := rest)
                          (done := done ++ [info]) (info := next)
                          (more := more);
        cbn; auto.
      * now rewrite <- app_assoc.
      * now rewrite Hqs.
      * rewrite Ht. apply sg_filter_single.
Qed.

Lemma sg_shape_determined (verses : list Verse) (s s1 s2 : state) :
  shape rev verses s -> env_step rev s s1 -> env_step rev s s2 -> s1 = s2.
Proof.
  intros Hs H1 H2.
  destruct (sg_env_step_cases H1)
    as [(i1 & k1 & q1 & Hq1 & ->)|(id1 & t1 & Hf1 & ->)];
    destruct (sg_env_step_cases H2)
      as [(i2 & k2 & q2 & Hq2 & ->)|(id2 & t2 & Hf2 & ->)].
  - rewrite Hq1 in Hq2. now injection Hq2 as <- <- <-.
  - destruct Hs as [? ? ? ? ? ? _ _ Hqs Ht _ _
                   |? ? ? ? ? ? ? _ _ Hqs Ht _ _ _ _ _|Hqs Ht _ _];
      try (rewrite Hqs in Hq1; discriminate Hq1);
      rewrite Ht in Hf2; discriminate Hf2.
  - destruct Hs as [? ? ? ? ? ? _ _ Hqs Ht _ _
                   |? ? ? ? ? ? ? _ _ Hqs Ht _ _ _ _ _|Hqs Ht _ _];
      try (rewrite Hqs in Hq2; discriminate Hq2);
      rewrite Ht in Hf1; discriminate Hf1.
  - destruct Hs as [? ? ? ? ? ? _ _ Hqs Ht _ _
                   |? ? ? ? ? ? t _ _ Hqs Ht _ _ _ _ _|Hqs Ht _ _];
      try (rewrite Ht in Hf1; discriminate Hf1).
    rewrite Ht in Hf1, Hf2.
    apply sg_find_single in Hf1, Hf2.
    destruct Hf1 as [-> <-], Hf2 as [-> <-]. reflexivity.
Qed.

Lemma sg_stuck (s s' : state) :
  queue s = [] -> timers s = [] -> ~ env_step rev s s'.
Proof.
  intros Hq Ht Hstep.
  destruct (sg_env_step_cases Hstep)
    as [(info & k & q & Hq' & _)|(id & t & Hf & _)].
  - rewrite Hq in Hq'. discriminate.
  - rewrite Ht in Hf. discriminate.
Qed.

Lemma sg_play_from_log (rest : list Verse) :
  forall index s, exists l, log (play_from rev index rest s) = log s ++ l.
Proof.
  induction rest as [|verse rest IH]; intros index s; cbn.
  - eauto.
  - destruct (makeUtterances rev verse) as [[|info more]|]; cbn; eauto.
    + destruct (IH (S index)
                  (setCurrentVerse (-1) (setCurrentVerse (Z.of_nat index) s)))
        as [l E].
      rewrite E. cbn. rewrite <- !app_assoc. eauto.
    + rewrite <- app_assoc. eauto.
Qed.

Lemma sg_resume_log (k : cont) (s : state) :
  exists l, log (resume rev k s) = log s ++ l.
Proof.
  destruct k as [[|info more] [|index rest]]; cbn; eauto.
  - destruct rev; cbn; [eauto|]. rewrite <- app_assoc. eauto.
  - destruct (sg_play_from_log rest index (setCurrentVerse (-1) s)) as [l E].
    rewrite E. cbn. rewrite <- app_assoc. eauto.
Qed.

Lemma sg_step_log (s s' : state) :
  env_step rev s s' -> exists l, log s' = log s ++ l.
Proof.
  intros Hstep.
  destruct (sg_env_step_cases Hstep)
    as [(info & k & q & _ & ->)|(id & t & _ & ->)].
  - cbn. eauto.
  - destruct (sg_resume_log (callback t) (fire id s)) as [l E].
    rewrite E. cbn. rewrite <- app_assoc. eauto.
Qed.

Lemma sg_reach_trans (a b c : state) :
  env_reach rev a b -> env_reach rev b c -> env_reach rev a c.
Proof. unfold env_reach. apply run_trans. Qed.

(** The parts of a verse run one after the other, up to the point where
    the promise of [speak] is resolved. *)
Lemma sg_parts_run (j : jobcont) (more : list UtteranceInfo) :
  forall info s,
    queue s = [] -> timers s = [] ->
    exists ct,
      env_reach rev (speak_part info (KSeg more j) s)
        (finish rev j
           (mkState (isPlaying s) (currentVerse s) ct [] []
              (next_timer s + Z.of_nat (S (List.length more)))
              (log s ++ parts_log (next_timer s) (info :: more)))).
Proof.
  induction more as [|next more IH]; intros info s Hq Ht.
  - exists (next_timer s).
    apply rt1n_trans
      with (y := on_end info (KSeg [] j)
                   (dequeue (speak_part info (KSeg [] j) s))).
    { exists UtteranceEnd. split; [reflexivity|].
      unfold step, speak_part. cbn [queue]. now rewrite Hq. }
    apply rt1n_trans
      with (y := finish rev j
                   (fire (next_timer s)
                      (on_end info (KSeg [] j)
                         (dequeue (speak_part info (KSeg [] j) s))))).
    { exists (TimerFire (next_timer s)). split; [reflexivity|].
      unfold step, on_end, dequeue, speak_part.
      cbn [timers find tid next_timer app]. rewrite Ht.
      cbn [app find tid]. rewrite Z.eqb_refl. reflexivity. }
    unfold fire, on_end, dequeue, speak_part. cbn. rewrite Hq, Ht. cbn.
    rewrite Z.eqb_refl. cbn. rewrite <- !app_assoc. cbn.
    apply rt1n_refl.
  - set (s2 := on_end info (KSeg (next :: more) j)
                 (dequeue (speak_part info (KSeg (next :: more) j) s))).
    set (s3 := mkState (isPlaying s) (currentVerse s) (next_timer s) [] []
                 (next_timer s + 1)
                 (log s ++ [Speak (utterance info); Ended (utterance info);
                            SetTimeout (next_timer s) (info_pause info);
                            Fired (next_timer s)])).
    assert (E3 : fire (next_timer s) s2 = s3).
    { unfold s3, s2, fire, on_end, dequeue, speak_part. cbn.
      rewrite Hq, Ht. cbn. rewrite Z.eqb_refl. cbn.
      now rewrite <- !app_assoc. }
    destruct (IH next s3) as [ct Hreach]; try reflexivity.
    exists ct.
    apply rt1n_trans with (y := s2).
    { exists UtteranceEnd. split; [reflexivity|].
      unfold s2, step, speak_part. cbn [queue]. rewrite Hq. reflexivity. }
    apply rt1n_trans with (y := speak_part next (KSeg more j) s3).
    { exists (TimerFire (next_timer s)). split; [reflexivity|].
      rewrite <- E3. unfold s2, step, on_end, dequeue, speak_part.
      cbn [timers find tid next_timer app]. rewrite Ht.
      cbn [app find tid]. rewrite Z.eqb_refl. reflexivity. }
    replace (next_timer s + Z.of_nat (S (List.length (next :: more))))
      with (next_timer s3 + Z.of_nat (S (List.length more)))
      by (cbn [next_timer s3 List.length]; lia).
    replace (log s ++ parts_log (next_timer s) (info :: next :: more))
      with (log s3 ++ parts_log (next_timer s3) (next :: more))
      by (cbn; now rewrite <- !app_assoc).
    exact Hreach.
Qed.

(** The chain runs to its end, and this is its log. *)
Lemma sg_chain_runs (rest : list Verse) :
  forall index s,
    queue s = [] -> timers s = [] -> isPlaying s = true ->
    currentVerse s = -1 ->
    exists s',
      env_reach rev (play_from rev index rest s) s'
      /\ log s' = log s ++ chain_log rev (next_timer s) index rest
      /\ queue s' = [] /\ timers s' = []
      /\ isPlaying s' = false /\ currentVerse s' = -1.
Proof.
  induction rest as [|verse rest IH]; intros index s Hq Ht Hp Hc.
  - exists (settle None s). cbn. repeat split; auto. apply rt1n_refl.
  - cbn [play_from chain_log].
    destruct (makeUtterances rev verse) as [[|info more]|] eqn:E.
    + destruct (@makeUtterances_not_nil verse E).
    + set (s1 := setCurrentVerse (Z.of_nat index) s).
      destruct (@sg_parts_run (KPlay (S index) rest) more info s1)
        as [ct Hparts]; [exact Hq|exact Ht|].
      cbn [finish] in Hparts.
      match type of Hparts with
      | env_reach _ _ (play_from _ _ _ ?x) => set (s4 := x) in Hparts
      end.
      destruct (IH (S index) s4) as (s' & Hreach & Hlog & Hfinal);
        try reflexivity; try assumption.
      exists s'. split; [|split; [|exact Hfinal]].
      * eapply sg_reach_trans; [exact Hparts|exact Hreach].
      * rewrite Hlog. unfold s4, s1. cbn.
        rewrite <- !app_assoc. reflexivity.
    + exists (settle (Some "TypeError") s). cbn.
      repeat split; auto. apply rt1n_refl.
Qed.

Lemma sg_click_play_shape (verses : list Verse) (s : state) :
  idle rev s -> shape rev verses (click_play rev verses s).
Proof.
  intros (Hq & Ht & Hc & Hp). unfold click_play, play.
  rewrite Hp.
  apply (@sg_play_from_shape verses [] verses); cbn; auto.
Qed.

End SegFacts.

(** ** The sequencers: claims *)

Section SequencerClaims.

Lemma r1_shape_in_flight (jobs : list (nat * UtteranceInfo)) (s : Rev1.state) :
  Rev1.shape jobs s -> (Rev1.in_flight s <= 1)%nat.
Proof.
  unfold Rev1.in_flight.
  intros [? ? ? ? _ Hq Ht _ _|? ? ? _ Hq Ht _ _ _ _|Hq Ht _ _];
    rewrite Hq, Ht; cbn; lia.
Qed.

Lemma sg_shape_in_flight (rev : revision) (verses : list Verse)
    (s : Seg.state) :
  Seg.shape rev verses s ->
  (List.length (Seg.queue s) + List.length (Seg.timers s) <= 1)%nat.
Proof.
  intros [? ? ? ? ? ? _ _ Hq Ht _ _
         |? ? ? ? ? ? ? _ _ Hq Ht _ _ _ _ _
         |Hq Ht _ _];
    rewrite Hq, Ht; cbn; lia.
Qed.

Lemma r1_run_shape (verses : list Verse) (s0 s : Rev1.state) :
  Rev1.idle s0 -> Rev1.env_reach (Rev1.click_play verses s0) s ->
  Rev1.shape (indexed 0 (map makeUtterance verses)) s.
Proof.
  intros Hi Hr.
  eapply run_inv with (turn := Rev1.env_step);
    [|apply r1_click_play_shape, Hi|exact Hr].
  intros a b. apply r1_shape_step.
Qed.

Lemma sg_run_shape (rev : revision) (verses : list Verse) (s0 s : Seg.state) :
  Seg.idle rev s0 -> Seg.env_reach rev (Seg.click_play rev verses s0) s ->
  Seg.shape rev verses s.
Proof.
  intros Hi Hr.
  eapply run_inv with (turn := Seg.env_step rev);
    [|apply sg_click_play_shape, Hi|exact Hr].
  intros a b. apply sg_shape_step.
Qed.

Lemma r1_play_sequential (verses : list Verse) (s0 : Rev1.state) :
  Rev1.idle s0 ->
  Rev1.sequential (Rev1.click_play verses s0)
    (Rev1.log s0 ++ Rev1.play_log (Rev1.next_timer s0) verses).
Proof.
  intros Hi. pose proof Hi as (Hq & Ht & Hc).
  destruct (@r1_chain_runs (indexed 0 (map makeUtterance verses))
              (Rev1.set_isPlaying true s0))
    as (sf & Hreach & Hlog & Hqf & Htf & Hpf & Hcf); auto.
  assert (Elog : Rev1.log sf
                 = Rev1.log s0 ++ Rev1.play_log (Rev1.next_timer s0) verses).
  { rewrite Hlog. cbn. now rewrite <- app_assoc. }
  split.
  - intros s Hs. split.
    + eapply r1_shape_in_flight, r1_run_shape; eauto.
    + rewrite <- Elog.
      eapply run_log_prefix
        with (turn := Rev1.env_step)
             (inv := Rev1.shape (indexed 0 (map makeUtterance verses)))
             (s := Rev1.click_play verses s0).
      * intros a b. apply r1_shape_step.
      * intros a b c. apply r1_shape_determined.
      * apply r1_step_log.
      * apply r1_click_play_shape, Hi.
      * exact Hs.
      * exact Hreach.
      * intros c. now apply r1_shape_over_stuck.
  - exists sf. unfold Rev1.in_flight. rewrite Hqf, Htf. auto.
Qed.

Lemma sg_play_sequential (rev : revision) (verses : list Verse)
    (s0 : Seg.state) :
  Seg.idle rev s0 ->
  Seg.sequential rev (Seg.click_play rev verses s0)
    (Seg.log s0 ++ Seg.play_log rev (Seg.next_timer s0) verses).
Proof.
  intros Hi. pose proof Hi as (Hq & Ht & Hc & Hp).
  destruct (@sg_chain_runs rev verses 0%nat (Seg.setIsPlaying true s0))
    as (sf & Hreach & Hlog & Hqf & Htf & Hpf & Hcf); auto.
  assert (Eplay : Seg.click_play rev verses s0
                  = Seg.play_from rev 0 verses (Seg.setIsPlaying true s0)).
  { unfold Seg.click_play, Seg.play. now rewrite Hp. }
  assert (Elog : Seg.log sf
                 = Seg.log s0 ++ Seg.play_log rev (Seg.next_timer s0) verses).
  { rewrite Hlog. cbn. now rewrite <- app_assoc. }
  split.
  - intros s Hs. split.
    + eapply sg_shape_in_flight, sg_run_shape; eauto.
    + rewrite <- Elog.
      eapply run_log_prefix
        with (turn := Seg.env_step rev) (inv := Seg.shape rev verses)
             (s := Seg.click_play rev verses s0).
      * intros a b. apply sg_shape_step.
      * intros a b c. apply sg_shape_determined.
      * apply sg_step_log.
      * apply sg_click_play_shape, Hi.
      * exact Hs.
      * rewrite Eplay. exact Hreach.
      * intros c. now apply sg_stuck.
  - exists sf. rewrite Eplay. auto 10.
Qed.

Lemma speaks_app (a b : list entry) : speaks (a ++ b) = speaks a ++ speaks b.
Proof.
  induction a as [|e a IH]; [reflexivity|].
  destruct e; cbn; rewrite IH; reflexivity.
Qed.

Lemma r1_speaks_chain (jobs : list (nat * UtteranceInfo)) :
  forall id, speaks (Rev1.chain_log id jobs)
             = map (fun job => utterance (snd job)) jobs.
Proof.
  induction jobs as [|[index info] jobs IH]; intros id; [reflexivity|].
  cbn. now rewrite IH.
Qed.

Lemma indexed_snd {A} (l : list A) :
  forall n, map snd (indexed n l) = l.
Proof. induction l as [|x l IH]; intros n; cbn; [|rewrite IH]; reflexivity. Qed.

Lemma r1_speaks_play (id : Z) (verses : list Verse) :
  speaks (Rev1.play_log id verses)
  = map (fun verse => utterance (makeUtterance verse)) verses.
Proof.
  unfold Rev1.play_log. cbn [speaks]. rewrite r1_speaks_chain.
  rewrite <- (map_map snd utterance), indexed_snd. apply map_map.
Qed.

Lemma sg_speaks_parts (infos : list UtteranceInfo) :
  forall id, speaks (Seg.parts_log id infos) = map utterance infos.
Proof.
  induction infos as [|info infos IH]; intros id; [reflexivity|].
  cbn. now rewrite IH.
Qed.

Lemma sg_speaks_chain (rev : revision) (verses : list Verse) :
  Forall (fun verse => text verse <> None) verses ->
  forall id index,
    speaks (Seg.chain_log rev id index verses)
    = flat_map (verse_utterances rev) verses.
Proof.
  induction 1 as [|verse verses Hv _ IH]; intros id index; [reflexivity|].
  cbn [Seg.chain_log flat_map]. unfold verse_utterances at 1.
  unfold makeUtterances at 1 2.
  destruct (text verse) as [t|]; [|contradiction].
  cbn [speaks]. rewrite speaks_app, sg_speaks_parts. cbn [speaks].
  now rewrite IH.
Qed.

Lemma map_index_utterance (rev : revision) (pause_of : nat -> option Z)
    (l : list string) :
  forall i,
    map utterance
      (map_index
         (fun part index =>
            mkInfo (mkUtterance (part_text rev part) 0.6 0.6)
                   (pause_of index))
         i l)
    = map (fun part => mkUtterance (part_text rev part) 0.6 0.6) l.
Proof.
  induction l as [|x l IH]; intros i; cbn; [reflexivity|].
  now rewrite IH.
Qed.

Lemma makeUtterances_spoken (rev : revision) (verse : Verse)
    (infos : list UtteranceInfo) :
  makeUtterances rev verse = Some infos ->
  map utterance infos = spoken_parts rev verse.
Proof.
  unfold makeUtterances, spoken_parts.
  destruct (text verse) as [t|]; [|discriminate].
  intros [= <-]. apply map_index_utterance.
Qed.

Lemma map_index_app {A B} (f : A -> nat -> B) (l1 l2 : list A) :
  forall i,
    map_index f i (l1 ++ l2)
    = map_index f i l1 ++ map_index f (i + List.length l1)%nat l2.
Proof.
  induction l1 as [|x l1 IH]; intros i; cbn.
  - now rewrite Nat.add_0_r.
  - rewrite IH. now replace (S i + List.length l1)%nat
      with (i + S (List.length l1))%nat by lia.
Qed.

Lemma map_index_last {A B} (f : A -> nat -> B) (d : A) (l : list A) :
  l <> [] ->
  forall i,
    map_index f i l
    = map_index f i (removelast l)
      ++ [f (last l d) (i + List.length l - 1)%nat].
Proof.
  induction l as [|x l IH]; [contradiction|]. intros _ i.
  destruct l as [|y l].
  - cbn. now replace (i + 1 - 1)%nat with i by lia.
  - assert (R : removelast (x :: y :: l) = x :: removelast (y :: l))
      by reflexivity.
    assert (L : last (x :: y :: l) d = last (y :: l) d) by reflexivity.
    rewrite R, L. remember (y :: l) as l' eqn:El.
    cbn [map_index app List.length].
    rewrite (IH ltac:(subst; discriminate) (S i)).
    replace (S i + List.length l' - 1)%nat
      with (i + S (List.length l') - 1)%nat by lia.
    reflexivity.
Qed.

(** The last part of a verse carries the pause of the verse. *)
Lemma makeUtterances_last (rev : revision) (verse : Verse) (t : string) :
  text verse = Some t ->
  exists init last_info,
    makeUtterances rev verse = Some (init ++ [last_info])
    /\ utterance last_info
       = mkUtterance (part_text rev (last (split comma t) "")) 0.6 0.6
    /\ info_pause last_info = pause verse.
Proof.
  intros Et. unfold makeUtterances. rewrite Et.
  pose proof (split_not_nil comma t) as NE.
  rewrite (map_index_last _ EmptyString NE).
  eexists. eexists. split; [reflexivity|]. split; [reflexivity|].
  cbn [info_pause].
  replace (Z.of_nat (0 + List.length (split comma t) - 1)
           =? Z.of_nat (List.length (split comma t)) - 1) with true;
    [reflexivity|].
  symmetry. apply Z.eqb_eq.
  destruct (split comma t); [contradiction|]. cbn [List.length]. lia.
Qed.

(** The first part of a verse. *)
Lemma makeUtterances_first (rev : revision) (verse : Verse) (t : string) :
  text verse = Some t ->
  exists first_info more,
    makeUtterances rev verse = Some (first_info :: more)
    /\ utterance first_info
       = mkUtterance (part_text rev (hd EmptyString (split comma t))) 0.6 0.6.
Proof.
  intros Et. unfold makeUtterances. rewrite Et.
  pose proof (split_not_nil comma t) as NE.
  destruct (split comma t) as [|part parts]; [contradiction|].
  cbn [map_index hd]. eexists. eexists. split; reflexivity.
Qed.

Lemma sg_parts_log_app (l1 l2 : list UtteranceInfo) :
  forall id,
    Seg.parts_log id (l1 ++ l2)
    = Seg.parts_log id l1
      ++ Seg.parts_log (id + Z.of_nat (List.length l1)) l2.
Proof.
  induction l1 as [|x l1 IH]; intros id.
  - cbn. now rewrite Z.add_0_r.
  - cbn [app Seg.parts_log List.length]. rewrite IH.
    replace (id + 1 + Z.of_nat (List.length l1))
      with (id + Z.of_nat (S (List.length l1))) by lia.
    reflexivity.
Qed.

(** The chain over verses that all have a text gets through them. *)
Lemma sg_chain_log_app (rev : revision) (before tail : list Verse) :
  Forall (fun verse => text verse <> None) before ->
  forall id index,
    exists l id',
      Seg.chain_log rev id index (before ++ tail)
      = l ++ Seg.chain_log rev id' (index + List.length before)%nat tail
      /\ speaks l = flat_map (spoken_parts rev) before.
Proof.
  induction 1 as [|verse before Hv _ IH]; intros id index.
  - exists [], id. cbn. now rewrite Nat.add_0_r.
  - cbn [app Seg.chain_log flat_map List.length].
    destruct (makeUtterances rev verse) as [infos|] eqn:E.
    + destruct (IH (id + Z.of_nat (List.length infos)) (S index))
        as (l & id' & El & Es).
      exists (SetCurrentVerse (Z.of_nat index)
                :: Seg.parts_log id infos ++ SetCurrentVerse (-1) :: l), id'.
      split.
      * rewrite El. cbn [app]. rewrite <- app_assoc. cbn [app].
        now replace (S index + List.length before)%nat
          with (index + S (List.length before))%nat by lia.
      * cbn [speaks]. rewrite speaks_app, sg_speaks_parts. cbn [speaks].
        now rewrite Es, (makeUtterances_spoken _ _ E).
    + unfold makeUtterances in E. destruct (text verse); [discriminate|].
      contradiction.
Qed.

(** From the end of the last part of a verse to the first part of the
    next. *)
Lemma sg_next_job (rev : revision) (before : list Verse) (a b : Verse)
    (rest : list Verse) (ta tb : string) (id : Z) :
  Forall (fun verse => text verse <> None) before ->
  text a = Some ta -> text b = Some tb ->
  exists l1 l2 timer,
    Seg.play_log rev id (before ++ a :: b :: rest)
    = l1
      ++ [Ended (mkUtterance
                   (part_text rev (last (split comma ta) "")) 0.6 0.6);
          SetTimeout timer (pause a); Fired timer;
          SetCurrentVerse (-1);
          SetCurrentVerse (Z.of_nat (S (List.length before)));
          Speak (mkUtterance
                   (part_text rev (hd EmptyString (split comma tb)))
                   0.6 0.6)]
      ++ l2
    /\ speaks l1 = flat_map (spoken_parts rev) (before ++ [a]).
Proof.
  intros Hb Ha Hn.
  destruct (sg_chain_log_app rev (a :: b :: rest) Hb id 0)
    as (l & id' & El & Es).
  destruct (makeUtterances_last rev a Ha) as (init & li & Ea & Eu & Ep).
  destruct (makeUtterances_first rev b Hn) as (fi & more & Eb & Ef).
  unfold Seg.play_log. rewrite El. cbn [Seg.chain_log Nat.add].
  rewrite Ea, Eb. rewrite sg_parts_log_app. cbn [Seg.parts_log app].
  rewrite Eu, Ep, Ef.
  exists (SetIsPlaying true
            :: l ++ SetCurrentVerse (Z.of_nat (List.length before))
            :: Seg.parts_log id' init
            ++ [Speak (mkUtterance
                         (part_text rev (last (split comma ta) "")) 0.6 0.6)]).
  eexists. eexists. split.
  - cbn [app]. f_equal. rewrite <- !app_assoc. f_equal. cbn [app].
    f_equal. rewrite <- !app_assoc. cbn [app]. reflexivity.
  - cbn [speaks]. rewrite speaks_app. cbn [speaks].
    rewrite speaks_app, sg_speaks_parts. cbn [speaks].
    rewrite flat_map_app. cbn [flat_map]. rewrite app_nil_r, Es. f_equal.
    rewrite <- (makeUtterances_spoken _ _ Ea), map_app. cbn [map].
    now rewrite Eu.
Qed.

(** C2.  A click on Play in a state where nothing is pending starts one
    run.  In [index.tsx] the run has one job per verse, in the order of
    the document: the index is published, the utterance is handed to the
    engine, it ends, the timer of the pause of the verse is set, the
    index is cleared, the timer fires, and only then the next job
    starts.  In [part_001] and [part_002] a job is the parts of the
    verse, each followed by its timer, and the index is cleared when the
    last timer has fired.  In both, whatever the run reaches has at
    most one utterance or timer pending and a log that is a beginning of
    the log below, and the run ends with nothing pending, the index
    cleared and playing off.  For two verses the log is written out.
    In [part_001] and [part_002] the run speaks, for verses that have a
    text, the parts between the commas of each text, verse after verse,
    at least one per verse; and between any verse and the next the log
    reads: the last part of the verse has ended, the timer of the pause
    of the verse is set and fires, the index is cleared, the next index
    is published, the first part of the next verse is handed to the
    engine; everything of the verses up to there has been spoken
    before. *)
Theorem play_is_sequential (verses : list Verse) :
  (forall s0, Rev1.idle s0 ->
     Rev1.sequential (Rev1.click_play verses s0)
       (Rev1.log s0 ++ Rev1.play_log (Rev1.next_timer s0) verses))
  /\ (forall id, speaks (Rev1.play_log id verses)
                 = map (fun verse => utterance (makeUtterance verse)) verses)
  /\ (forall rev s0, Seg.idle rev s0 ->
        Seg.sequential rev (Seg.click_play rev verses s0)
          (Seg.log s0 ++ Seg.play_log rev (Seg.next_timer s0) verses))
  /\ (forall rev id,
        Forall (fun verse => text verse <> None) verses ->
        speaks (Seg.play_log rev id verses)
        = flat_map (verse_utterances rev) verses)
  /\ (forall a b id,
        Rev1.play_log id [a; b]
        = [SetIsPlaying true;
           SetCurrentVerse 0; Speak (utterance (makeUtterance a));
           Ended (utterance (makeUtterance a)); SetTimeout id (pause a);
           SetCurrentVerse (-1); Fired id;
           SetCurrentVerse 1; Speak (utterance (makeUtterance b));
           Ended (utterance (makeUtterance b)); SetTimeout (id + 1) (pause b);
           SetCurrentVerse (-1); Fired (id + 1);
           SetIsPlaying false])
  /\ (forall rev a b parts_a parts_b id,
        makeUtterances rev a = Some parts_a ->
        makeUtterances rev b = Some parts_b ->
        Seg.play_log rev id [a; b]
        = [SetIsPlaying true; SetCurrentVerse 0]
            ++ Seg.parts_log id parts_a
            ++ [SetCurrentVerse (-1); SetCurrentVerse 1]
            ++ Seg.parts_log (id + Z.of_nat (List.length parts_a)) parts_b
            ++ [SetCurrentVerse (-1); SetIsPlaying false])
  /\ (forall rev id,
        Forall (fun verse => text verse <> None) verses ->
        speaks (Seg.play_log rev id verses)
        = flat_map
            (fun verse =>
               match text verse with
               | Some t =>
                   map (fun part => mkUtterance (part_text rev part) 0.6 0.6)
                       (split comma t)
               | None => []
               end)
            verses
        /\ Forall (fun verse => spoken_parts rev verse <> []) verses)
  /\ (forall rev before a b rest ta tb id,
        verses = before ++ a :: b :: rest ->
        Forall (fun verse => text verse <> None) before ->
        text a = Some ta -> text b = Some tb ->
        exists l1 l2 timer,
          Seg.play_log rev id verses
          = l1
            ++ [Ended (mkUtterance
                         (part_text rev (last (split comma ta) "")) 0.6 0.6);
                SetTimeout timer (pause a); Fired timer;
                SetCurrentVerse (-1);
                SetCurrentVerse (Z.of_nat (S (List.length before)));
                Speak (mkUtterance
                         (part_text rev (hd EmptyString (split comma tb)))
                         0.6 0.6)]
            ++ l2
          /\ speaks l1 = flat_map (spoken_parts rev) (before ++ [a]))
  /\ (forall rev ta pa tb pb id,
        occurs comma ta = 0%nat -> occurs comma tb = 0%nat ->
        Seg.play_log rev id [mkVerse (Some ta) pa; mkVerse (Some tb) pb]
        = [SetIsPlaying true;
           SetCurrentVerse 0;
           Speak (mkUtterance (part_text rev ta) 0.6 0.6);
           Ended (mkUtterance (part_text rev ta) 0.6 0.6);
           SetTimeout id pa; Fired id;
           SetCurrentVerse (-1);
           SetCurrentVerse 1;
           Speak (mkUtterance (part_text rev tb) 0.6 0.6);
           Ended (mkUtterance (part_text rev tb) 0.6 0.6);
           SetTimeout (id + 1) pb; Fired (id + 1);
           SetCurrentVerse (-1);
           SetIsPlaying false]).
Proof.
  split; [|split; [|split; [|split; [|split; [|split; [|split; [|split]]]]]]].
  - intros s0. apply r1_play_sequential.
  - intros id. apply r1_speaks_play.
  - intros rev s0. apply sg_play_sequential.
  - intros rev id H. unfold Seg.play_log. cbn [speaks].
    now apply sg_speaks_chain.
  - reflexivity.
  - intros rev a b parts_a parts_b id Ha Hb.
    unfold Seg.play_log. cbn [Seg.chain_log]. rewrite Ha, Hb.
    reflexivity.
  - intros rev id H. split.
    + destruct (sg_chain_log_app rev [] H id 0) as (l & id' & El & Es).
      rewrite (app_nil_r verses) in El.
      unfold Seg.play_log. cbn [speaks]. rewrite El, speaks_app, Es.
      cbn [Seg.chain_log speaks]. rewrite app_nil_r. reflexivity.
    + eapply Forall_impl; [|exact H].
      intros verse Hv. cbn beta in Hv. unfold spoken_parts.
      destruct (text verse) as [t|]; [|contradiction].
      pose proof (split_not_nil comma t) as NE.
      destruct (split comma t); [contradiction|discriminate].
  - intros rev before a b rest ta tb id -> Hb Ha Hn.
    now apply sg_next_job.
  - intros rev ta pa tb pb id Ha Hb.
    unfold Seg.play_log. cbn [Seg.chain_log]. unfold makeUtterances.
    cbn [text pause]. rewrite (split_clean _ _ Ha), (split_clean _ _ Hb).
    reflexivity.
Qed.

Lemma play_is_sequential_witness :
  Rev1.idle Rev1.initial
  /\ Rev1.sequential (Rev1.click_play [verse_A; verse_B] Rev1.initial)
       (Rev1.play_log 1 [verse_A; verse_B])
  /\ Seg.idle part_002 Seg.initial
  /\ Seg.sequential part_002
       (Seg.click_play part_002 [verse_A; verse_B] Seg.initial)
       (Seg.play_log part_002 1 [verse_A; verse_B]).
Proof.
  assert (I1 : Rev1.idle Rev1.initial) by (repeat split).
  assert (I2 : Seg.idle part_002 Seg.initial) by (repeat split).
  split; [exact I1|]. split.
  - exact (proj1 (play_is_sequential [verse_A; verse_B]) Rev1.initial I1).
  - split; [exact I2|].
    exact (proj1 (proj2 (proj2 (play_is_sequential [verse_A; verse_B])))
             part_002 Seg.initial I2).
Defined.

Lemma indexed_split {A} (before : list (nat * A)) :
  forall (l : list A) (n i : nat) (x : A) (rest : list (nat * A)),
    indexed n l = before ++ (i, x) :: rest ->
    i = (n + List.length before)%nat
    /\ nth_error l (List.length before) = Some x.
Proof.
  induction before as [|b before IH]; intros [|y l] n i x rest E;
    try discriminate E; cbn in E.
  - injection E as <- <- _. cbn. split; [lia|reflexivity].
  - injection E as _ E. apply IH in E. destruct E as [-> E].
    cbn. split; [lia|exact E].
Qed.

Lemma nth_error_middle {A} (before : list A) (x : A) (rest : list A) :
  nth_error (before ++ x :: rest) (List.length before) = Some x.
Proof. induction before; cbn; auto. Qed.

Lemma r1_highlight (verses : list Verse) (s0 s : Rev1.state) :
  Rev1.idle s0 -> Rev1.env_reach (Rev1.click_play verses s0) s ->
  (forall info k, In (info, k) (Rev1.queue s) ->
     exists i verse,
       Rev1.currentVerse s = Z.of_nat i
       /\ nth_error verses i = Some verse
       /\ info = makeUtterance verse)
  /\ (Rev1.queue s = [] -> Rev1.currentVerse s = -1).
Proof.
  intros Hi Hr.
  destruct (@r1_run_shape verses s0 s Hi Hr)
    as [before index info rest Hj Hq Ht Hc Hp
       |before rest t Hj Hq Ht Hcb Hid Hc Hp
       |Hq Ht Hc Hp]; rewrite Hq.
  - split; [|discriminate].
    intros info' k' [[= <- <-]|[]].
    apply indexed_split in Hj. destruct Hj as [-> Hn].
    rewrite nth_error_map in Hn.
    destruct (nth_error verses (List.length before)) as [verse|] eqn:E;
      [|discriminate].
    injection Hn as <-. exists (List.length before), verse. auto.
  - split; [intros ? ? []|auto].
  - split; [intros ? ? []|auto].
Qed.

Lemma sg_highlight (rev : revision) (verses : list Verse) (s0 s : Seg.state) :
  Seg.idle rev s0 -> Seg.env_reach rev (Seg.click_play rev verses s0) s ->
  (forall info k, In (info, k) (Seg.queue s) ->
     exists i verse infos,
       Seg.currentVerse s = Z.of_nat i
       /\ nth_error verses i = Some verse
       /\ makeUtterances rev verse = Some infos
       /\ In info infos)
  /\ (forall t, In t (Seg.timers s) ->
        exists i verse infos info,
          Seg.currentVerse s = Z.of_nat i
          /\ nth_error verses i = Some verse
          /\ makeUtterances rev verse = Some infos
          /\ In info infos
          /\ Seg.delay t = info_pause info)
  /\ (Seg.queue s = [] -> Seg.timers s = [] -> Seg.currentVerse s = -1).
Proof.
  intros Hi Hr.
  destruct (@sg_run_shape rev verses s0 s Hi Hr)
    as [before verse rest done info more Hv Hm Hq Ht Hc Hp
       |before verse rest done info more t Hv Hm Hq Ht Hd Hcb Hid Hc Hp
       |Hq Ht Hc Hp]; rewrite Hq, Ht.
  - split; [|split; [intros ? []|discriminate]].
    intros info' k' [[= <- <-]|[]].
    exists (List.length before), verse, (done ++ info :: more).
    repeat split; auto.
    + rewrite Hv. apply nth_error_middle.
    + apply in_elt.
  - split; [intros ? ? []|split; [|discriminate]].
    intros t' [<-|[]].
    exists (List.length before), verse, (done ++ info :: more), info.
    repeat split; auto.
    + rewrite Hv. apply nth_error_middle.
    + apply in_elt.
  - split; [intros ? ? []|split; [intros ? []|auto]].
Qed.

(** C7, as the claim has it, fails in [part_001] (and [part_002]): after
    the utterance of verse A has ended, nothing is being spoken, the
    timer of its pause of 500 ms is pending, and the index is still 0. *)
Lemma index_kept_during_pause :
  exists s,
    Seg.env_reach part_001
      (Seg.click_play part_001 [verse_A; verse_B] Seg.initial) s
    /\ Seg.queue s = []
    /\ map Seg.delay (Seg.timers s) = [Some 500]
    /\ Seg.currentVerse s = 0
    /\ Seg.currentVerse s <> -1.
Proof.
  eexists. split.
  - eapply rt1n_trans; [|apply rt1n_refl].
    exists UtteranceEnd. split; reflexivity.
  - cbn. repeat split. discriminate.
Qed.

(** C7, amended.  During a run of [play] that nothing interferes with:
    in [index.tsx] the index is that of the verse whose utterance is
    being spoken, and it is cleared whenever no utterance is being
    spoken, the pauses included.  In [part_001] and [part_002] the index
    is that of the verse whose part is being spoken, it stays on that
    verse through the pauses of its parts and through its own pause,
    and it is cleared when nothing is pending any more. *)
Theorem highlight_follows_job (verses : list Verse) :
  (forall s0 s,
     Rev1.idle s0 -> Rev1.env_reach (Rev1.click_play verses s0) s ->
     (forall info k, In (info, k) (Rev1.queue s) ->
        exists i verse,
          Rev1.currentVerse s = Z.of_nat i
          /\ nth_error verses i = Some verse
          /\ info = makeUtterance verse)
     /\ (Rev1.queue s = [] -> Rev1.currentVerse s = -1))
  /\ (forall rev s0 s,
        Seg.idle rev s0 -> Seg.env_reach rev (Seg.click_play rev verses s0) s ->
        (forall info k, In (info, k) (Seg.queue s) ->
           exists i verse infos,
             Seg.currentVerse s = Z.of_nat i
             /\ nth_error verses i = Some verse
             /\ makeUtterances rev verse = Some infos
             /\ In info infos)
        /\ (forall t, In t (Seg.timers s) ->
              exists i verse infos info,
                Seg.currentVerse s = Z.of_nat i
                /\ nth_error verses i = Some verse
                /\ makeUtterances rev verse = Some infos
                /\ In info infos
                /\ Seg.delay t = info_pause info)
        /\ (Seg.queue s = [] -> Seg.timers s = [] -> Seg.currentVerse s = -1)).
Proof.
  split.
  - intros s0 s. apply r1_highlight.
  - intros rev s0 s. apply sg_highlight.
Qed.

Lemma highlight_follows_job_witness :
  Rev1.idle Rev1.initial
  /\ Rev1.env_reach (Rev1.click_play [verse_A; verse_B] Rev1.initial)
       (Rev1.click_play [verse_A; verse_B] Rev1.initial)
  /\ exists i verse,
       Rev1.currentVerse (Rev1.click_play [verse_A; verse_B] Rev1.initial)
       = Z.of_nat i
       /\ nth_error [verse_A; verse_B] i = Some verse
       /\ makeUtterance verse_A = makeUtterance verse.
Proof.
  assert (I1 : Rev1.idle Rev1.initial) by (repeat split).
  assert (R1 : Rev1.env_reach (Rev1.click_play [verse_A; verse_B] Rev1.initial)
                 (Rev1.click_play [verse_A; verse_B] Rev1.initial))
    by apply rt1n_refl.
  split; [exact I1|]. split; [exact R1|].
  refine (proj1 (proj1 (highlight_follows_job [verse_A; verse_B])
                   Rev1.initial _ I1 R1)
            (makeUtterance verse_A)
            (Rev1.KPlay [(1%nat, makeUtterance verse_B)]) _).
  left. reflexivity.
Defined.

(** In [index.tsx], once [isPlaying.current] is false the environment
    alone never sets it again, and no utterance is handed to the engine. *)
Lemma r1_not_playing_step (s s' : Rev1.state) :
  Rev1.isPlaying s = false -> Rev1.env_step s s' ->
  Rev1.isPlaying s' = false /\ speaks (Rev1.log s') = speaks (Rev1.log s).
Proof.
  intros Hp Hstep.
  destruct (r1_env_step_cases Hstep)
    as [(info & k & q & _ & ->)|(id & t & _ & ->)].
  - cbn. split; [exact Hp|]. rewrite speaks_app. cbn. apply app_nil_r.
  - destruct (Rev1.callback t) as [|[|[index info] rest]]; cbn.
    + split; [exact Hp|]. rewrite speaks_app. cbn. apply app_nil_r.
    + split; [reflexivity|]. rewrite !speaks_app. cbn. now rewrite !app_nil_r.
    + unfold Rev1.speak. cbn. rewrite Hp. cbn.
      split; [reflexivity|]. rewrite !speaks_app. cbn. now rewrite !app_nil_r.
Qed.

Lemma r1_not_playing_reach (s s' : Rev1.state) :
  Rev1.env_reach s s' -> Rev1.isPlaying s = false ->
  Rev1.isPlaying s' = false /\ speaks (Rev1.log s') = speaks (Rev1.log s).
Proof.
  induction 1 as [s|s s1 s' Hstep _ IH]; intros Hp; [auto|].
  destruct (r1_not_playing_step Hp Hstep) as [Hp1 E1].
  destruct (IH Hp1) as [Hp' E']. split; [exact Hp'|congruence].
Qed.

Lemma r1_stuck_reach (s s' : Rev1.state) :
  Rev1.queue s = [] -> Rev1.timers s = [] -> Rev1.env_reach s s' -> s' = s.
Proof.
  intros Hq Ht [|y z Hstep _]; [reflexivity|].
  destruct (r1_shape_over_stuck Hq Ht Hstep).
Qed.

Lemma sg_stuck_reach (rev : revision) (s s' : Seg.state) :
  Seg.queue s = [] -> Seg.timers s = [] -> Seg.env_reach rev s s' -> s' = s.
Proof.
  intros Hq Ht [|y z Hstep _]; [reflexivity|].
  destruct (sg_stuck Hq Ht Hstep).
Qed.

Lemma r1_stop (verses : list Verse) (s0 s : Rev1.state) :
  Rev1.idle s0 -> Rev1.env_reach (Rev1.click_play verses s0) s ->
  Rev1.isPlaying (Rev1.click_stop s) = false
  /\ Rev1.timers (Rev1.click_stop s) = []
  /\ Rev1.queue (Rev1.click_stop s) = Rev1.queue s
  /\ Rev1.currentVerse (Rev1.click_stop s) = Rev1.currentVerse s
  /\ (forall s', Rev1.env_reach (Rev1.click_stop s) s' ->
        Rev1.isPlaying s' = false
        /\ speaks (Rev1.log s') = speaks (Rev1.log s))
  /\ (Rev1.queue s = [] ->
      forall s', Rev1.env_reach (Rev1.click_stop s) s' ->
                 s' = Rev1.click_stop s).
Proof.
  intros Hi Hr.
  assert (Ht : Rev1.timers (Rev1.click_stop s) = []).
  { destruct (@r1_run_shape verses s0 s Hi Hr)
      as [? ? ? ? _ _ Ht _ _|? ? t _ _ Ht _ Hid _ _|_ Ht _ _]; cbn; rewrite Ht.
    - reflexivity.
    - rewrite <- Hid. apply r1_filter_single.
    - reflexivity. }
  repeat split; auto.
  - now apply (@r1_not_playing_reach (Rev1.click_stop s) s').
  - destruct (@r1_not_playing_reach (Rev1.click_stop s) s' H eq_refl) as [_ E].
    rewrite E. cbn. rewrite !speaks_app. cbn. now rewrite !app_nil_r.
  - intros Hq s' Hs'. now apply r1_stuck_reach.
Qed.

Lemma sg_stop (rev : revision) (verses : list Verse) (s0 s : Seg.state) :
  Seg.idle rev s0 -> Seg.env_reach rev (Seg.click_play rev verses s0) s ->
  Seg.isPlaying (Seg.click_stop rev s) = false
  /\ Seg.currentVerse (Seg.click_stop rev s) = -1
  /\ Seg.queue (Seg.click_stop rev s) = []
  /\ Seg.timers (Seg.click_stop rev s) = []
  /\ (forall s', Seg.env_reach rev (Seg.click_stop rev s) s' ->
                 s' = Seg.click_stop rev s).
Proof.
  intros Hi Hr.
  assert (H : Seg.isPlaying (Seg.click_stop rev s) = false
              /\ Seg.currentVerse (Seg.click_stop rev s) = -1
              /\ Seg.queue (Seg.click_stop rev s) = []
              /\ Seg.timers (Seg.click_stop rev s) = []).
  { unfold Seg.click_stop.
    destruct (@sg_run_shape rev verses s0 s Hi Hr)
      as [? ? ? ? ? ? _ _ Hq Ht _ Hp
         |? ? ? ? ? ? t _ _ Hq Ht _ _ Hid _ Hp
         |Hq Ht Hc Hp]; rewrite Hp.
    - rewrite andb_false_r. cbn. rewrite Ht. auto.
    - rewrite andb_false_r. cbn. rewrite Ht, <- Hid, sg_filter_single. auto.
    - destruct (Seg.disables rev); cbn; [auto|]. rewrite Ht. auto. }
  destruct H as (H1 & H2 & H3 & H4). repeat split; auto.
  intros s' Hs'. now apply (@sg_stuck_reach rev).
Qed.

(** C4, as the claim has it, fails in [index.tsx]: Stop during the
    utterance of verse A leaves that utterance in the engine and the
    index on 0; when the utterance ends, the timer of the pause is set
    all the same. *)
Lemma stop_leaves_utterance :
  let s := Rev1.click_play [verse_A; verse_B] Rev1.initial in
  Rev1.isPlaying s = true
  /\ map fst (Rev1.queue (Rev1.click_stop s)) = [makeUtterance verse_A]
  /\ Rev1.currentVerse (Rev1.click_stop s) = 0
  /\ Rev1.currentVerse (Rev1.click_stop s) <> -1
  /\ exists s',
       Rev1.step (Rev1.click_stop s) UtteranceEnd = Some s'
       /\ map Rev1.delay (Rev1.timers s') = [Some 500].
Proof.
  cbn. repeat split; try discriminate.
  eexists. split; reflexivity.
Qed.

(** Stop in [index.tsx] while an utterance of the run is being spoken:
    the turns that follow when nothing is clicked. *)
Lemma r1_stop_speaking (verses : list Verse) (s0 s : Rev1.state)
    (info : UtteranceInfo) (k : Rev1.cont) :
  Rev1.idle s0 ->
  Rev1.env_reach (Rev1.click_play verses s0) s ->
  Rev1.queue s = [(info, k)] ->
  exists s',
    Rev1.env_reach (Rev1.click_stop s) s'
    /\ Rev1.in_flight s' = 0%nat
    /\ Rev1.isPlaying s' = false
    /\ Rev1.currentVerse s' = -1
    /\ Rev1.log s'
       = Rev1.log s
           ++ [SetIsPlaying false; ClearTimeout (Rev1.currentTimeout s);
               Ended (utterance info);
               SetTimeout (Rev1.next_timer s) (info_pause info);
               SetCurrentVerse (-1); Fired (Rev1.next_timer s)]
           ++ match k with
              | Rev1.KPlay (_ :: _) =>
                  [ConsoleLog "Not playing"; SetIsPlaying false]
              | _ => [SetIsPlaying false]
              end.
Proof.
  intros Hi Hr Hq.
  destruct (@r1_run_shape verses s0 s Hi Hr)
    as [before index info' rest _ Hq' Ht _ _|? ? ? _ Hq' _ _ _ _ _|Hq' _ _ _];
    rewrite Hq in Hq'; try discriminate Hq'.
  injection Hq' as -> ->.
  set (s1 := Rev1.click_stop s).
  assert (E1 : s1 = Rev1.mkState false (Rev1.currentVerse s)
                      (Rev1.currentTimeout s) [(info', Rev1.KPlay rest)] []
                      (Rev1.next_timer s)
                      ((Rev1.log s ++ [SetIsPlaying false])
                         ++ [ClearTimeout (Rev1.currentTimeout s)])).
  { unfold s1, Rev1.click_stop, Rev1.clearTimeout, Rev1.set_isPlaying. cbn.
    now rewrite Hq, Ht. }
  set (s2 := Rev1.on_end info' (Rev1.KPlay rest) (Rev1.dequeue s1)).
  set (s3 := Rev1.resume (Rev1.KPlay rest) (Rev1.fire (Rev1.next_timer s) s2)).
  exists s3. split; [|split; [|split; [|split]]].
  - apply rt1n_trans with (y := s2).
    { exists UtteranceEnd. split; [reflexivity|].
      unfold s2. rewrite E1. reflexivity. }
    apply rt1n_trans with (y := s3); [|apply rt1n_refl].
    exists (TimerFire (Rev1.next_timer s)). split; [reflexivity|].
    unfold s3, s2, Rev1.on_end, Rev1.dequeue. rewrite E1.
    unfold Rev1.step. cbn [Rev1.timers find Rev1.tid Rev1.next_timer app].
    rewrite Z.eqb_refl. reflexivity.
  - unfold s3, s2, Rev1.fire, Rev1.on_end, Rev1.dequeue, Rev1.in_flight.
    rewrite E1. destruct rest as [|[i j] rest]; cbn; now rewrite Z.eqb_refl.
  - unfold s3, s2. rewrite E1. destruct rest as [|[i j] rest]; reflexivity.
  - unfold s3, s2. rewrite E1. destruct rest as [|[i j] rest]; reflexivity.
  - unfold s3, s2, Rev1.fire, Rev1.on_end, Rev1.dequeue. rewrite E1.
    destruct rest as [|[i j] rest]; cbn; rewrite <- !app_assoc; reflexivity.
Qed.

(** C4, amended.  Stop during a run of [play] that was started with
    nothing pending and that nothing has interfered with: playing is
    off at once and no timer is left.  In [part_001] and [part_002] the
    queue of the engine is emptied and the index cleared at once as
    well: no utterance and no timer of the run is left, and nothing
    happens any more until the next click.  In [index.tsx] the queue of
    the engine and the index are left as they are.  When Stop comes
    during a pause, no utterance and no timer of the run is left, so
    the next job never starts.  When Stop comes while an utterance is
    being spoken and no click follows, the utterance goes on to its
    end, the timer of its pause is set and fires, the next [speak] is
    rejected with ["Not playing"], and the run is over with the index
    cleared; no further utterance is started.  A click on Test or Play
    before that timer fires sets the flag again, and the stopped run
    goes on with its next verse. *)
Theorem stop_ends_run (verses : list Verse) :
  (forall s0 s,
     Rev1.idle s0 -> Rev1.env_reach (Rev1.click_play verses s0) s ->
     Rev1.isPlaying (Rev1.click_stop s) = false
     /\ Rev1.timers (Rev1.click_stop s) = []
     /\ Rev1.queue (Rev1.click_stop s) = Rev1.queue s
     /\ Rev1.currentVerse (Rev1.click_stop s) = Rev1.currentVerse s
     /\ (forall s', Rev1.env_reach (Rev1.click_stop s) s' ->
           Rev1.isPlaying s' = false
           /\ speaks (Rev1.log s') = speaks (Rev1.log s))
     /\ (Rev1.queue s = [] ->
         Rev1.in_flight (Rev1.click_stop s) = 0%nat
         /\ forall s', Rev1.env_reach (Rev1.click_stop s) s' ->
                       s' = Rev1.click_stop s)
     /\ (forall info k,
           Rev1.queue s = [(info, k)] ->
           exists s',
             Rev1.env_reach (Rev1.click_stop s) s'
             /\ Rev1.in_flight s' = 0%nat
             /\ Rev1.isPlaying s' = false
             /\ Rev1.currentVerse s' = -1
             /\ Rev1.log s'
                = Rev1.log s
                    ++ [SetIsPlaying false;
                        ClearTimeout (Rev1.currentTimeout s);
                        Ended (utterance info);
                        SetTimeout (Rev1.next_timer s) (info_pause info);
                        SetCurrentVerse (-1); Fired (Rev1.next_timer s)]
                    ++ match k with
                       | Rev1.KPlay (_ :: _) =>
                           [ConsoleLog "Not playing"; SetIsPlaying false]
                       | _ => [SetIsPlaying false]
                       end))
  /\ (forall rev s0 s,
        Seg.idle rev s0 -> Seg.env_reach rev (Seg.click_play rev verses s0) s ->
        Seg.isPlaying (Seg.click_stop rev s) = false
        /\ Seg.currentVerse (Seg.click_stop rev s) = -1
        /\ Seg.queue (Seg.click_stop rev s) = []
        /\ Seg.timers (Seg.click_stop rev s) = []
        /\ Seg.in_flight (Seg.click_stop rev s) = 0%nat
        /\ (forall s', Seg.env_reach rev (Seg.click_stop rev s) s' ->
                       s' = Seg.click_stop rev s))
  /\ (forall (a b test : Verse) (rest : list Verse),
        exists s,
          run Rev1.step Rev1.initial
            [ClickPlay (a :: b :: rest); ClickStop; ClickTest 0 test;
             UtteranceEnd; TimerFire 1]
          = Some s
          /\ Rev1.isPlaying s = true
          /\ speaks (Rev1.log s)
             = [utterance (makeUtterance a); utterance (makeUtterance test);
                utterance (makeUtterance b)]
          /\ Rev1.currentVerse s = 1).
Proof.
  split; [|split].
  - intros s0 s Hi Hr.
    destruct (@r1_stop verses s0 s Hi Hr) as (H1 & H2 & H3 & H4 & H5 & H6).
    split; [exact H1|]. split; [exact H2|]. split; [exact H3|].
    split; [exact H4|]. split; [exact H5|]. split.
    + intros Hq. split; [|now apply H6].
      unfold Rev1.in_flight. now rewrite H3, H2, Hq.
    + intros info k Hq. now apply (@r1_stop_speaking verses s0).
  - intros rev s0 s Hi Hr.
    destruct (@sg_stop rev verses s0 s Hi Hr) as (H1 & H2 & H3 & H4 & H5).
    split; [exact H1|]. split; [exact H2|]. split; [exact H3|].
    split; [exact H4|]. split; [|exact H5].
    unfold Seg.in_flight. now rewrite H3, H4.
  - intros a b test rest. eexists. split; [reflexivity|]. cbn. auto.
Qed.

(** What the chain of [play] does to a state when it starts: it ends at
    once with playing off, or it hands one utterance to the engine. *)
Lemma sg_play_from_effect (rev : revision) (rest : list Verse) :
  forall index s,
    Seg.timers (Seg.play_from rev index rest s) = Seg.timers s
    /\ Seg.currentTimeout (Seg.play_from rev index rest s)
       = Seg.currentTimeout s
    /\ ((Seg.queue (Seg.play_from rev index rest s) = Seg.queue s
         /\ Seg.isPlaying (Seg.play_from rev index rest s) = false)
        \/ (exists x,
              Seg.queue (Seg.play_from rev index rest s) = Seg.queue s ++ [x]
              /\ Seg.isPlaying (Seg.play_from rev index rest s)
                 = Seg.isPlaying s)).
Proof.
  induction rest as [|verse rest IH]; intros index s; cbn.
  - auto.
  - destruct (makeUtterances rev verse) as [[|info more]|]; cbn; auto.
    + apply (IH (S index)
               (Seg.setCurrentVerse (-1)
                  (Seg.setCurrentVerse (Z.of_nat index) s))).
    + split; [reflexivity|]. split; [reflexivity|]. right. eauto.
Qed.

Lemma filter_current (c : Z) (l : list Seg.timer) :
  (forall t, In t l -> Seg.tid t = c) ->
  filter (fun t => negb (Seg.tid t =? c)) l = [].
Proof.
  induction l as [|t l IH]; intros H; [reflexivity|].
  cbn. rewrite (H t (or_introl eq_refl)), Z.eqb_refl. cbn.
  apply IH. intros t' Ht'. apply H. now right.
Qed.

Lemma one_run_nothing (s : Seg.state) :
  Seg.queue s = [] -> Seg.timers s = [] -> Seg.one_run s.
Proof.
  intros Hq Ht. unfold Seg.one_run, Seg.in_flight. rewrite Hq, Ht. cbn.
  repeat split; auto. intros t [].
Qed.

Lemma one_run_speaking (s : Seg.state) (x : UtteranceInfo * Seg.cont) :
  Seg.queue s = [x] -> Seg.timers s = [] -> Seg.isPlaying s = true ->
  Seg.one_run s.
Proof.
  intros Hq Ht Hp. unfold Seg.one_run, Seg.in_flight. rewrite Hq, Ht, Hp. cbn.
  repeat split; auto; try discriminate. intros t [].
Qed.

Lemma one_run_play_from (rest : list Verse) (index : nat) (s : Seg.state) :
  Seg.queue s = [] -> Seg.timers s = [] -> Seg.isPlaying s = true ->
  Seg.one_run (Seg.play_from part_002 index rest s).
Proof.
  intros Hq Ht Hp.
  destruct (sg_play_from_effect part_002 rest index s)
    as (Et & _ & [[Eq Ep]|(x & Eq & Ep)]).
  - apply one_run_nothing; congruence.
  - apply one_run_speaking with (x := x); try congruence.
    now rewrite Eq, Hq.
Qed.

Lemma one_run_pending (s : Seg.state) :
  Seg.one_run s -> (0 < Seg.in_flight s)%nat -> Seg.isPlaying s = true.
Proof.
  intros (_ & H & _) Hpos. destruct (Seg.isPlaying s); [reflexivity|].
  specialize (H eq_refl). lia.
Qed.

(** In [part_002] every turn, the user's clicks included, keeps at most
    one run under way. *)
Lemma one_run_step (s s' : Seg.state) :
  Seg.one_run s -> Seg.any_step part_002 s s' -> Seg.one_run s'.
Proof.
  intros Hinv [e Hstep]. pose proof Hinv as (H1 & H0 & Hid).
  unfold Seg.in_flight in H1, H0.
  destruct e as [verses| |index verse| |id]; cbn in Hstep.
  - injection Hstep as <-. unfold Seg.click_play. cbn.
    destruct (Seg.isPlaying s) eqn:Hp; [exact Hinv|].
    specialize (H0 eq_refl).
    apply one_run_play_from; cbn; auto.
    + destruct (Seg.queue s); [reflexivity|cbn in H0; lia].
    + destruct (Seg.timers s); [reflexivity|cbn in H0; lia].
  - injection Hstep as <-. unfold Seg.click_stop. cbn.
    destruct (Seg.isPlaying s) eqn:Hp; [|exact Hinv]. cbn.
    apply one_run_nothing; cbn; [reflexivity|].
    now apply filter_current.
  - injection Hstep as <-. unfold Seg.click_test. cbn.
    destruct (Seg.isPlaying s) eqn:Hp; [exact Hinv|]. cbn.
    specialize (H0 eq_refl).
    assert (Hq : Seg.queue s = [])
      by (destruct (Seg.queue s); [reflexivity|cbn in H0; lia]).
    assert (Ht : Seg.timers s = [])
      by (destruct (Seg.timers s); [reflexivity|cbn in H0; lia]).
    destruct (makeUtterances part_002 verse) as [[|info more]|]; cbn.
    + apply one_run_nothing; cbn; assumption.
    + apply one_run_speaking with (x := (info, Seg.KSeg more Seg.KTest));
        cbn; auto. now rewrite Hq.
    + apply one_run_nothing; cbn; assumption.
  - destruct (Seg.queue s) as [|[info k] q] eqn:Hq; [discriminate|].
    injection Hstep as <-.
    assert (Hq' : q = []) by (destruct q; [reflexivity|cbn in H1; lia]).
    assert (Ht : Seg.timers s = [])
      by (destruct (Seg.timers s); [reflexivity|cbn in H1; lia]).
    assert (Hp : Seg.isPlaying s = true).
    { apply one_run_pending; [exact Hinv|].
      unfold Seg.in_flight. rewrite Hq. cbn. lia. }
    subst q. unfold Seg.one_run, Seg.in_flight. cbn.
    rewrite Hq, Ht, Hp. cbn. repeat split; auto; try discriminate.
    intros t [<-|[]]. reflexivity.
  - destruct (find _ (Seg.timers s)) as [t|] eqn:Hf; [|discriminate].
    injection Hstep as <-.
    destruct (Seg.timers s) as [|t0 ts] eqn:Ht; [discriminate|].
    assert (Hts : ts = []) by (destruct ts; [reflexivity|cbn in H1; lia]).
    assert (Hq : Seg.queue s = [])
      by (destruct (Seg.queue s); [reflexivity|cbn in H1; lia]).
    assert (Hp : Seg.isPlaying s = true).
    { apply one_run_pending; [exact Hinv|].
      unfold Seg.in_flight. rewrite Ht. cbn. lia. }
    subst ts. apply sg_find_single in Hf. destruct Hf as [-> <-].
    assert (Ef : Seg.timers (Seg.fire (Seg.tid t0) s) = [])
      by (cbn; rewrite Ht; apply sg_filter_single).
    destruct (Seg.callback t0) as [[|info more] [|index rest]];
      cbn [Seg.resume Seg.finish].
    + apply one_run_nothing; cbn; auto.
    + apply one_run_play_from; cbn; auto.
    + apply one_run_speaking with (x := (info, Seg.KSeg more Seg.KTest));
        cbn; auto. now rewrite Hq.
    + apply one_run_speaking
        with (x := (info, Seg.KSeg more (Seg.KPlay index rest)));
        cbn; auto. now rewrite Hq.
Qed.

Lemma one_run_reach (s s' : Seg.state) :
  Seg.one_run s -> Seg.reach part_002 s s' -> Seg.one_run s'.
Proof.
  intros Hs Hr. induction Hr as [|s s1 s' Hstep _ IH]; [exact Hs|].
  apply IH. eapply one_run_step; eauto.
Qed.

Lemma first_part (rev : revision) (t : string) (p : option Z) :
  exists info more,
    makeUtterances rev (mkVerse (Some t) p) = Some (info :: more).
Proof.
  destruct (makeUtterances rev (mkVerse (Some t) p)) as [[|info more]|] eqn:E.
  - destruct (@makeUtterances_not_nil rev _ E).
  - eauto.
  - discriminate E.
Qed.

(** C6, as the claim has it, fails in [index.tsx] (and [part_001]): a
    second click on Play while the first run speaks verse A hands the
    utterance of verse A to the engine again; two runs are under way. *)
Lemma second_play_overlaps :
  let s := Rev1.click_play [verse_A; verse_B] Rev1.initial in
  Rev1.isPlaying s = true
  /\ Rev1.in_flight s = 1%nat
  /\ Rev1.in_flight (Rev1.click_play [verse_A; verse_B] s) = 2%nat
  /\ map fst (Rev1.queue (Rev1.click_play [verse_A; verse_B] s))
     = [makeUtterance verse_A; makeUtterance verse_A].
Proof. cbn. repeat split. Qed.

(** C6, amended.  In [part_002] Play and Test are disabled while
    [isPlaying] is set: in every state the page can reach at most one
    utterance or timer is pending, none when playing is off, and a
    click on Play while playing changes nothing.  In [index.tsx] and in
    [part_001] there is no such guard: a second click on Play while the
    first verse is spoken starts a second chain, and the engine holds
    the first utterance of both. *)
Theorem second_play (verse : Verse) (verses : list Verse) :
  (forall s,
     Seg.reach part_002 Seg.initial s ->
     (Seg.in_flight s <= 1)%nat
     /\ (Seg.isPlaying s = false -> Seg.in_flight s = 0%nat)
     /\ (Seg.isPlaying s = true ->
         forall again, Seg.step part_002 s (ClickPlay again) = Some s))
  /\ (let s := Rev1.click_play (verse :: verses) Rev1.initial in
      Rev1.isPlaying s = true
      /\ map fst (Rev1.queue (Rev1.click_play (verse :: verses) s))
         = [makeUtterance verse; makeUtterance verse])
  /\ (text verse <> None ->
      let s := Seg.click_play part_001 (verse :: verses) Seg.initial in
      Seg.isPlaying s = true
      /\ exists info more,
           makeUtterances part_001 verse = Some (info :: more)
           /\ map fst (Seg.queue (Seg.click_play part_001 (verse :: verses) s))
              = [info; info]).
Proof.
  split; [|split].
  - intros s Hr.
    assert (H : Seg.one_run s).
    { apply one_run_reach with (s := Seg.initial); [|exact Hr].
      apply one_run_nothing; reflexivity. }
    destruct H as (H1 & H0 & _). repeat split; auto.
    intros Hp again. cbn. unfold Seg.click_play. now rewrite Hp.
  - cbn. auto.
  - intros Ht. destruct verse as [[t|] p]; [|contradiction].
    destruct (first_part part_001 t p) as (info & more & E).
    cbn zeta. unfold Seg.click_play, Seg.play. cbn [Seg.disables andb].
    cbn [Seg.play_from]. rewrite E. cbn. eauto.
Qed.

Lemma second_play_witness :
  Seg.reach part_002 Seg.initial
    (Seg.click_play part_002 [verse_A; verse_B] Seg.initial)
  /\ Seg.isPlaying (Seg.click_play part_002 [verse_A; verse_B] Seg.initial)
     = true
  /\ Seg.step part_002
       (Seg.click_play part_002 [verse_A; verse_B] Seg.initial)
       (ClickPlay [verse_A; verse_B])
     = Some (Seg.click_play part_002 [verse_A; verse_B] Seg.initial)
  /\ text verse_A <> None.
Proof.
  assert (R : Seg.reach part_002 Seg.initial
                (Seg.click_play part_002 [verse_A; verse_B] Seg.initial)).
  { eapply rt1n_trans; [|apply rt1n_refl].
    exists (ClickPlay [verse_A; verse_B]). reflexivity. }
  split; [exact R|]. split; [reflexivity|]. split; [|discriminate].
  exact (proj2 (proj2 (proj1 (second_play verse_A [verse_B]) _ R))
           eq_refl [verse_A; verse_B]).
Defined.

Lemma stop_ends_run_witness :
  Rev1.idle Rev1.initial
  /\ Rev1.env_reach (Rev1.click_play [verse_A; verse_B] Rev1.initial)
       (Rev1.click_play [verse_A; verse_B] Rev1.initial)
  /\ Rev1.isPlaying
       (Rev1.click_stop (Rev1.click_play [verse_A; verse_B] Rev1.initial))
     = false
  /\ Seg.idle part_001 Seg.initial
  /\ Seg.queue
       (Seg.click_stop part_001
          (Seg.click_play part_001 [verse_A; verse_B] Seg.initial))
     = [].
Proof.
  assert (I1 : Rev1.idle Rev1.initial) by (repeat split).
  assert (I2 : Seg.idle part_001 Seg.initial) by (repeat split).
  split; [exact I1|]. split; [apply rt1n_refl|]. split.
  - exact (proj1 (proj1 (stop_ends_run [verse_A; verse_B])
                    Rev1.initial _ I1 (rt1n_refl _ _ _))).
  - split; [exact I2|].
    exact (proj1 (proj2 (proj2
             (proj1 (proj2 (stop_ends_run [verse_A; verse_B]))
                part_001 Seg.initial _ I2 (rt1n_refl _ _ _))))).
Defined.

End SequencerClaims.

(** * Further properties of the code *)

(** ** The reducer *)

Section ReducerMore.

Lemma replaced_lookup {A} (l : list A) :
  forall (k j : nat) (x : A),
    (k < List.length l)%nat ->
    nth_error (firstn k l ++ [x] ++ skipn (S k) l) j
    = if Nat.eqb j k then Some x else nth_error l j.
Proof.
  induction l as [|y l IH]; intros k j x Hk; [cbn in Hk; lia|].
  destruct k as [|k], j as [|j]; cbn; try reflexivity.
  apply IH. cbn in Hk. lia.
Qed.

Lemma update_lookup (verses : list Verse) (k j : nat) (v : Verse) :
  (k < List.length verses)%nat ->
  nth_error (updateVerse verses (Z.of_nat k) v) j
  = if Nat.eqb j k
    then option_map (fun old => spread old v) (nth_error verses k)
    else nth_error verses j.
Proof.
  intros Hk. rewrite update_nat, replaced_lookup by exact Hk.
  destruct (Nat.eqb j k); [|reflexivity].
  destruct (nth_error verses k) as [old|] eqn:E; [reflexivity|].
  apply nth_error_None in E. lia.
Qed.

Lemma update_length (verses : list Verse) (k : nat) (v : Verse) :
  (k < List.length verses)%nat ->
  List.length (updateVerse verses (Z.of_nat k) v) = List.length verses.
Proof.
  intros Hk. rewrite update_nat, !length_app, length_firstn, length_skipn.
  cbn. lia.
Qed.

Lemma spread_assoc (a b c : Verse) :
  spread (spread a b) c = spread a (spread b c).
Proof.
  destruct a as [[?|] [?|]], b as [[?|] [?|]], c as [[?|] [?|]];
    reflexivity.
Qed.

(** X1.  An update at an index in range keeps the length, puts the old
    verse overlaid with the given fields at that index, and leaves every
    other verse as it was. *)
Theorem update_in_range (verses : list Verse) (k : nat) (v : Verse) :
  (k < List.length verses)%nat ->
  List.length (updateVerse verses (Z.of_nat k) v) = List.length verses
  /\ (exists old,
        nth_error verses k = Some old
        /\ nth_error (updateVerse verses (Z.of_nat k) v) k
           = Some (spread old v))
  /\ (forall j, j <> k ->
        nth_error (updateVerse verses (Z.of_nat k) v) j
        = nth_error verses j).
Proof.
  intros Hk. split; [now apply update_length|]. split.
  - destruct (nth_error verses k) as [old|] eqn:E.
    + exists old. split; [reflexivity|].
      rewrite update_lookup, Nat.eqb_refl, E by exact Hk. reflexivity.
    + apply nth_error_None in E. lia.
  - intros j Hj. rewrite update_lookup by exact Hk.
    now destruct (Nat.eqb_spec j k).
Qed.

Lemma update_in_range_witness :
  (1 < List.length [verse_A; verse_B])%nat
  /\ List.length (updateVerse [verse_A; verse_B] 1 (mkVerse (Some "C") None))
     = 2%nat.
Proof.
  assert (H : (1 < List.length [verse_A; verse_B])%nat) by (cbn; lia).
  split; [exact H|].
  exact (proj1 (@update_in_range [verse_A; verse_B] 1
                  (mkVerse (Some "C") None) H)).
Defined.

(** X2.  Two updates at the same index in range are one update with the
    second set of fields laid over the first. *)
Theorem update_twice (verses : list Verse) (k : nat) (p q : Verse) :
  (k < List.length verses)%nat ->
  updateVerse (updateVerse verses (Z.of_nat k) p) (Z.of_nat k) q
  = updateVerse verses (Z.of_nat k) (spread p q).
Proof.
  intros Hk. apply nth_error_ext. intros j.
  assert (Hk' : (k < List.length (updateVerse verses (Z.of_nat k) p))%nat)
    by now rewrite update_length.
  rewrite (update_lookup _ j q Hk'), !update_lookup by exact Hk.
  rewrite Nat.eqb_refl.
  destruct (Nat.eqb j k); [|reflexivity].
  destruct (nth_error verses k) as [old|]; [|reflexivity].
  cbn. now rewrite spread_assoc.
Qed.

Lemma update_twice_witness :
  (0 < List.length [verse_A])%nat
  /\ updateVerse (updateVerse [verse_A] 0 (mkVerse (Some "C") None)) 0
       (mkVerse None (Some 7))
     = updateVerse [verse_A] 0 (mkVerse (Some "C") (Some 7)).
Proof.
  assert (H : (0 < List.length [verse_A])%nat) by (cbn; lia).
  split; [exact H|].
  exact (@update_twice [verse_A] 0 (mkVerse (Some "C") None)
           (mkVerse None (Some 7)) H).
Defined.

(** X3.  Updates at two different indices in range can be made in
    either order. *)
Theorem update_commute (verses : list Verse) (j k : nat) (p q : Verse) :
  (j < List.length verses)%nat -> (k < List.length verses)%nat -> j <> k ->
  updateVerse (updateVerse verses (Z.of_nat j) p) (Z.of_nat k) q
  = updateVerse (updateVerse verses (Z.of_nat k) q) (Z.of_nat j) p.
Proof.
  intros Hj Hk Hjk. apply nth_error_ext. intros i.
  assert (Hk' : (k < List.length (updateVerse verses (Z.of_nat j) p))%nat)
    by now rewrite update_length.
  assert (Hj' : (j < List.length (updateVerse verses (Z.of_nat k) q))%nat)
    by now rewrite update_length.
  rewrite (update_lookup _ i q Hk'), (update_lookup _ i p Hj').
  rewrite !update_lookup by assumption.
  destruct (Nat.eqb_spec i k) as [Hik|Hik], (Nat.eqb_spec i j) as [Hij|Hij];
    try reflexivity; try congruence; subst i.
  - destruct (Nat.eqb_spec k j); [congruence|reflexivity].
  - destruct (Nat.eqb_spec j k); [congruence|reflexivity].
Qed.

Lemma update_commute_witness :
  (0 < List.length [verse_A; verse_B])%nat
  /\ (1 < List.length [verse_A; verse_B])%nat
  /\ 0%nat <> 1%nat
  /\ updateVerse (updateVerse [verse_A; verse_B] 0 (mkVerse (Some "C") None))
       1 (mkVerse None (Some 7))
     = updateVerse
         (updateVerse [verse_A; verse_B] 1 (mkVerse None (Some 7)))
         0 (mkVerse (Some "C") None).
Proof.
  assert (H0 : (0 < List.length [verse_A; verse_B])%nat) by (cbn; lia).
  assert (H1 : (1 < List.length [verse_A; verse_B])%nat) by (cbn; lia).
  assert (N : 0%nat <> 1%nat) by discriminate.
  repeat (split; [assumption|]).
  exact (@update_commute [verse_A; verse_B] 0 1 (mkVerse (Some "C") None)
           (mkVerse None (Some 7)) H0 H1 N).
Defined.

Lemma add_appends (verses : list Verse) :
  addVerse verses = verses ++ [default_verse].
Proof.
  unfold addVerse, JsArray.len. rewrite update_nat.
  rewrite firstn_all, skipn_all2 by lia.
  replace (nth_error verses (List.length verses)) with (@None Verse)
    by (symmetry; apply nth_error_None; lia).
  reflexivity.
Qed.

(** X4.  Add Verse puts the verse with the empty text and the pause of
    1000 ms at the end and leaves the others; clicked [n] times on the
    empty store it gives [n] such verses; and deleting the verse just
    added gives the store back. *)
Theorem add_verse_appends (verses : list Verse) (n : nat) :
  addVerse verses = verses ++ [default_verse]
  /\ Nat.iter n addVerse [] = repeat default_verse n
  /\ deleteVerse (addVerse verses) (JsArray.len verses) = verses.
Proof.
  split; [apply add_appends|]. split.
  - induction n as [|n IH]; [reflexivity|].
    cbn [Nat.iter nat_rect]. unfold Nat.iter in IH. rewrite IH, add_appends.
    symmetry. apply repeat_cons.
  - unfold JsArray.len. rewrite delete_nat, add_appends.
    rewrite firstn_app, firstn_all, Nat.sub_diag.
    rewrite skipn_all2 by (rewrite length_app; cbn; lia).
    cbn. now rewrite !app_nil_r.
Qed.

(** X5.  What Delete at an index [k] in range really removes: the
    result is the verses before [k] followed by those from [2k+1] on,
    the array that was the state is left holding the verses at
    [k .. 2k], so [min (k+1) (n-k)] verses go.  The result is the
    deletion of the one verse at [k] exactly at the first and at the
    last index. *)
Theorem delete_removes (verses : list Verse) (k : nat) :
  (k < List.length verses)%nat ->
  reducer_run verses (Update (Z.of_nat k) None)
  = (firstn k verses ++ skipn (2 * k + 1) verses,
     firstn (S k) (skipn k verses))
  /\ firstn k verses ++ firstn (S k) (skipn k verses)
       ++ skipn (2 * k + 1) verses = verses
  /\ (List.length (deleteVerse verses (Z.of_nat k))
      + Nat.min (S k) (List.length verses - k))%nat
     = List.length verses
  /\ (deleteVerse verses (Z.of_nat k) = remove_at k verses
      <-> k = 0%nat \/ S k = List.length verses).
Proof.
  intros Hk. split; [|split; [|split]].
  - unfold reducer_run. rewrite splice_0_nat.
    replace (Z.of_nat k + 1) with (Z.of_nat (S k)) by lia.
    rewrite splice_from_nat, skipn_skipn.
    do 3 f_equal. lia.
  - replace (2 * k + 1)%nat with (S k + k)%nat by lia.
    rewrite <- skipn_skipn, firstn_skipn. apply firstn_skipn.
  - rewrite delete_nat, length_app, length_firstn, length_skipn. lia.
  - split.
    + intros E. apply (f_equal (@List.length _)) in E.
      rewrite delete_nat in E. unfold remove_at in E.
      rewrite !length_app, !length_firstn, !length_skipn in E. lia.
    + intros H. now apply delete_first_or_last.
Qed.

Lemma delete_removes_witness :
  (1 < List.length [verse_A; verse_B; verse_A; verse_B; verse_A])%nat
  /\ reducer_run [verse_A; verse_B; verse_A; verse_B; verse_A]
       (Update 1 None)
     = ([verse_A; verse_B; verse_A], [verse_B; verse_A]).
Proof.
  assert (H : (1 < List.length
                       [verse_A; verse_B; verse_A; verse_B; verse_A])%nat)
    by (cbn; lia).
  split; [exact H|].
  exact (proj1 (@delete_removes
                  [verse_A; verse_B; verse_A; verse_B; verse_A] 1 H)).
Defined.

Lemma Forall_firstn {A} (P : A -> Prop) (n : nat) (l : list A) :
  Forall P l -> Forall P (firstn n l).
Proof.
  intros H. rewrite <- (firstn_skipn n l) in H.
  now apply Forall_app in H.
Qed.

Lemma Forall_skipn {A} (P : A -> Prop) (n : nat) (l : list A) :
  Forall P l -> Forall P (skipn n l).
Proof.
  intros H. rewrite <- (firstn_skipn n l) in H.
  now apply Forall_app in H.
Qed.

(** X6.  When every verse of the store has a text and a pause, it still
    has after whatever the controls of the page dispatch: Add Verse, an
    edit of the text or of the pause of a card, Delete on a card,
    Clear.  The length goes up by one for Add Verse, stays for an edit,
    is 0 after Clear and goes down for Delete. *)
Theorem store_stays_complete (verses : list Verse) (a : action) :
  Forall complete verses -> ui_action verses a ->
  Forall complete (reducer verses a)
  /\ match a with
     | Replace _ => List.length (reducer verses a) = 0%nat
     | Update _ None =>
         (List.length (reducer verses a) < List.length verses)%nat
     | Update index (Some _) =>
         List.length (reducer verses a)
         = if index =? JsArray.len verses
           then S (List.length verses) else List.length verses
     end.
Proof.
  intros Hc [|index t Hi|index p Hi|index Hi|].
  - fold (updateVerse verses (JsArray.len verses) default_verse).
    fold (addVerse verses). rewrite add_appends, Z.eqb_refl. split.
    + apply Forall_app. split; [exact Hc|].
      repeat constructor; cbn; discriminate.
    + rewrite length_app. cbn. lia.
  - fold (updateVerse verses (Z.of_nat index) (mkVerse (Some t) None)).
    split.
    + rewrite update_nat. apply Forall_app. split; [now apply Forall_firstn|].
      apply Forall_app. split; [|now apply Forall_skipn].
      constructor; [|constructor].
      destruct (nth_error verses index) as [old|] eqn:E;
        [|apply nth_error_None in E; lia].
      apply nth_error_In in E.
      rewrite Forall_forall in Hc. destruct (Hc old E) as [_ Hp].
      split; cbn; [discriminate|exact Hp].
    + rewrite update_length by exact Hi.
      unfold JsArray.len.
      destruct (Z.eqb_spec (Z.of_nat index) (Z.of_nat (List.length verses)));
        [lia|reflexivity].
  - fold (updateVerse verses (Z.of_nat index) (mkVerse None (Some p))).
    split.
    + rewrite update_nat. apply Forall_app. split; [now apply Forall_firstn|].
      apply Forall_app. split; [|now apply Forall_skipn].
      constructor; [|constructor].
      destruct (nth_error verses index) as [old|] eqn:E;
        [|apply nth_error_None in E; lia].
      apply nth_error_In in E.
      rewrite Forall_forall in Hc. destruct (Hc old E) as [Ht _].
      split; cbn; [exact Ht|discriminate].
    + rewrite update_length by exact Hi.
      unfold JsArray.len.
      destruct (Z.eqb_spec (Z.of_nat index) (Z.of_nat (List.length verses)));
        [lia|reflexivity].
  - fold (deleteVerse verses (Z.of_nat index)). rewrite delete_nat. split.
    + apply Forall_app. split; [now apply Forall_firstn|now apply Forall_skipn].
    + rewrite length_app, length_firstn, length_skipn. lia.
  - split; [constructor|reflexivity].
Qed.

Lemma store_stays_complete_witness :
  Forall complete [verse_A; verse_B]
  /\ ui_action [verse_A; verse_B] (Update 0 (Some (mkVerse (Some "C") None)))
  /\ Forall complete
       (reducer [verse_A; verse_B] (Update 0 (Some (mkVerse (Some "C") None)))).
Proof.
  assert (Hc : Forall complete [verse_A; verse_B])
    by (repeat constructor; cbn; discriminate).
  assert (Hu : ui_action [verse_A; verse_B]
                 (Update (Z.of_nat 0) (Some (mkVerse (Some "C") None))))
    by (apply ui_text; cbn; lia).
  split; [exact Hc|]. split; [exact Hu|].
  exact (proj1 (@store_stays_complete [verse_A; verse_B] _ Hc Hu)).
Defined.

End ReducerMore.

(** ** Utterances and pauses of a run *)

Section RunMore.

(** X7.  A verse whose text holds no comma is one utterance in the later
    revisions, with the pause of the verse: in [part_002] the very
    utterance that [makeUtterance] of [index.tsx] builds, in [part_001]
    the same with the text led by three dots unless it is empty. *)
Theorem one_part_verse (t : string) (p : option Z) :
  occurs comma t = 0%nat ->
  makeUtterances part_002 (mkVerse (Some t) p)
  = Some [makeUtterance (mkVerse (Some t) p)]
  /\ makeUtterances part_001 (mkVerse (Some t) p)
     = Some [mkInfo
               (mkUtterance
                  (match t with
                   | EmptyString => " "
                   | _ => ("..." ++ t)%string
                   end) 0.6 0.6) p].
Proof.
  intros H. unfold makeUtterances. cbn [text pause].
  rewrite (split_clean _ _ H). cbn.
  destruct t; split; reflexivity.
Qed.

Lemma one_part_verse_witness :
  occurs comma "A" = 0%nat
  /\ makeUtterances part_002 verse_A = Some [makeUtterance verse_A].
Proof.
  split; [reflexivity|].
  exact (proj1 (@one_part_verse "A" (Some 500) eq_refl)).
Defined.

Lemma timeouts_app (a b : list entry) :
  timeouts (a ++ b) = timeouts a ++ timeouts b.
Proof.
  induction a as [|e a IH]; [reflexivity|].
  destruct e; cbn; rewrite IH; reflexivity.
Qed.

Lemma r1_timeouts_chain (jobs : list (nat * UtteranceInfo)) :
  forall id, timeouts (Rev1.chain_log id jobs)
             = map (fun job => info_pause (snd job)) jobs.
Proof.
  induction jobs as [|[index info] jobs IH]; intros id; [reflexivity|].
  cbn. now rewrite IH.
Qed.

Lemma sg_timeouts_parts (infos : list UtteranceInfo) :
  forall id, timeouts (Seg.parts_log id infos) = map info_pause infos.
Proof.
  induction infos as [|info infos IH]; intros id; [reflexivity|].
  cbn. now rewrite IH.
Qed.

Lemma sg_timeouts_chain (rev : revision) (verses : list Verse) :
  Forall (fun verse => text verse <> None) verses ->
  forall id index,
    timeouts (Seg.chain_log rev id index verses)
    = flat_map (verse_pauses rev) verses.
Proof.
  induction 1 as [|verse verses Hv _ IH]; intros id index; [reflexivity|].
  cbn [Seg.chain_log flat_map]. unfold verse_pauses at 1.
  unfold makeUtterances at 1 2.
  destruct (text verse) as [t|]; [|contradiction].
  cbn [timeouts]. rewrite timeouts_app, sg_timeouts_parts. cbn [timeouts].
  now rewrite IH.
Qed.

Lemma part_pauses (rev : revision) (p : option Z) (l : list string) :
  forall (i c : nat),
    l <> [] -> c = (i + List.length l)%nat ->
    map info_pause
      (map_index
         (fun part index =>
            mkInfo (mkUtterance (part_text rev part) 0.6 0.6)
                   (if Z.of_nat index =? Z.of_nat c - 1
                    then p else Some segment_pause))
         i l)
    = repeat (Some segment_pause) (List.length l - 1) ++ [p].
Proof.
  induction l as [|x l IH]; intros i c Hne Hc; [contradiction|].
  destruct l as [|y l].
  - cbn. replace (Z.of_nat i =? Z.of_nat c - 1) with true
      by (symmetry; apply Z.eqb_eq; cbn in Hc; lia). reflexivity.
  - assert (Hc' : c = (S i + List.length (y :: l))%nat)
      by (cbn in Hc |- *; lia).
    assert (Hne' : y :: l <> []) by discriminate.
    specialize (IH (S i) c Hne' Hc').
    remember (y :: l) as l' eqn:El.
    cbn [map_index map info_pause].
    replace (Z.of_nat i =? Z.of_nat c - 1) with false
      by (symmetry; apply Z.eqb_neq; subst l'; cbn in Hc; lia).
    rewrite IH. subst l'. cbn. now rewrite Nat.sub_0_r.
Qed.

(** X8.  The timers of a whole run.  In [index.tsx] a run of [play]
    that nothing interferes with sets one timer per verse, with the
    pauses of the verses in their order.  In [part_001] and [part_002],
    when every verse has a text, a verse sets one timer of 300 ms per
    comma of its text and then one with its own pause. *)
Theorem run_timeouts (verses : list Verse) :
  (forall s0, Rev1.idle s0 ->
     exists s,
       Rev1.env_reach (Rev1.click_play verses s0) s
       /\ Rev1.in_flight s = 0%nat
       /\ timeouts (Rev1.log s)
          = timeouts (Rev1.log s0) ++ map pause verses)
  /\ (forall rev s0,
        Seg.idle rev s0 ->
        Forall (fun verse => text verse <> None) verses ->
        exists s,
          Seg.env_reach rev (Seg.click_play rev verses s0) s
          /\ Seg.in_flight s = 0%nat
          /\ timeouts (Seg.log s)
             = timeouts (Seg.log s0) ++ flat_map (verse_pauses rev) verses)
  /\ (forall rev t p,
        verse_pauses rev (mkVerse (Some t) p)
        = repeat (Some 300) (occurs comma t) ++ [p]).
Proof.
  split; [|split].
  - intros s0 Hi.
    destruct (r1_play_sequential verses Hi) as [_ (s & Hr & Hl & Hf & _)].
    exists s. split; [exact Hr|]. split; [exact Hf|].
    rewrite Hl, timeouts_app. f_equal.
    unfold Rev1.play_log. cbn [timeouts]. rewrite r1_timeouts_chain.
    rewrite <- (map_map snd info_pause), indexed_snd. apply map_map.
  - intros rev s0 Hi Ht.
    destruct (sg_play_sequential verses Hi)
      as [_ (s & Hr & Hl & Hq & Htm & _)].
    exists s. split; [exact Hr|]. split.
    + unfold Seg.in_flight. now rewrite Hq, Htm.
    + rewrite Hl, timeouts_app. f_equal.
      unfold Seg.play_log. cbn [timeouts]. now apply sg_timeouts_chain.
  - intros rev t p. unfold verse_pauses, makeUtterances. cbn [text pause].
    rewrite (@part_pauses rev p (split comma t) 0 (List.length (split comma t)))
      by (try apply split_not_nil; reflexivity).
    rewrite split_length. cbn. now rewrite Nat.sub_0_r.
Qed.

Lemma run_timeouts_witness :
  Rev1.idle Rev1.initial
  /\ exists s,
       Rev1.env_reach (Rev1.click_play [verse_A; verse_B] Rev1.initial) s
       /\ Rev1.in_flight s = 0%nat
       /\ timeouts (Rev1.log s) = [Some 500; Some 300].
Proof.
  assert (I1 : Rev1.idle Rev1.initial) by (repeat split).
  split; [exact I1|].
  exact (proj1 (run_timeouts [verse_A; verse_B]) Rev1.initial I1).
Defined.

End RunMore.

(** ** The sequencers between clicks *)

Section SequencerMore.

Lemma filter_found {A} (f : A -> bool) (l : list A) (x : A) :
  find f l = Some x ->
  (List.length (filter (fun y => negb (f y)) l) < List.length l)%nat.
Proof.
  induction l as [|y l IH]; [discriminate|].
  cbn. destruct (f y) eqn:E; cbn.
  - intros _. pose proof (filter_length_le (fun y => negb (f y)) l). lia.
  - intros H. specialize (IH H). lia.
Qed.

Lemma r1_resume_effect (k : Rev1.cont) (s : Rev1.state) :
  Rev1.timers (Rev1.resume k s) = Rev1.timers s
  /\ (List.length (Rev1.queue (Rev1.resume k s))
      <= S (List.length (Rev1.queue s)))%nat.
Proof.
  destruct k as [|[|[index info] rest]]; cbn; auto.
  unfold Rev1.speak. destruct (Rev1.isPlaying s); cbn; auto.
  rewrite length_app. cbn. split; [reflexivity|lia].
Qed.

Lemma sg_resume_effect (rev : revision) (k : Seg.cont) (s : Seg.state) :
  Seg.timers (Seg.resume rev k s) = Seg.timers s
  /\ (List.length (Seg.queue (Seg.resume rev k s))
      <= S (List.length (Seg.queue s)))%nat.
Proof.
  destruct k as [[|info more] [|index rest]]; cbn [Seg.resume Seg.finish].
  - destruct rev; cbn; auto.
  - destruct (sg_play_from_effect rev rest index (Seg.setCurrentVerse (-1) s))
      as (Et & _ & [[Eq _]|(x & Eq & _)]); rewrite Et, Eq; cbn; auto.
    rewrite length_app. cbn. split; [reflexivity|lia].
  - cbn. rewrite length_app. cbn. split; [reflexivity|lia].
  - cbn. rewrite length_app. cbn. split; [reflexivity|lia].
Qed.

(** X9.  In every state of the three revisions, a turn of the
    environment (an utterance ends, a timer fires) never raises the
    number of utterances and timers that are pending: what it sets off
    takes the place of what it used up.  Only a click adds to it. *)
Theorem env_turn_keeps_count :
  (forall s s', Rev1.env_step s s' ->
                (Rev1.in_flight s' <= Rev1.in_flight s)%nat)
  /\ (forall rev s s', Seg.env_step rev s s' ->
                       (Seg.in_flight s' <= Seg.in_flight s)%nat).
Proof.
  split.
  - intros s s' Hstep. unfold Rev1.in_flight.
    destruct (r1_env_step_cases Hstep)
      as [(info & k & q & Hq & ->)|(id & t & Hf & ->)].
    + cbn. rewrite Hq, length_app. cbn. lia.
    + destruct (r1_resume_effect (Rev1.callback t) (Rev1.fire id s))
        as [Et El].
      rewrite Et. cbn in El |- *.
      pose proof (filter_found _ _ Hf). lia.
  - intros rev s s' Hstep. unfold Seg.in_flight.
    destruct (sg_env_step_cases Hstep)
      as [(info & k & q & Hq & ->)|(id & t & Hf & ->)].
    + cbn. rewrite Hq, length_app. cbn. lia.
    + destruct (sg_resume_effect rev (Seg.callback t) (Seg.fire id s))
        as [Et El].
      rewrite Et. cbn in El |- *.
      pose proof (filter_found _ _ Hf). lia.
Qed.

Lemma env_turn_keeps_count_witness :
  Rev1.env_step (Rev1.click_play [verse_A; verse_B] Rev1.initial)
    (Rev1.on_end (makeUtterance verse_A)
       (Rev1.KPlay [(1%nat, makeUtterance verse_B)])
       (Rev1.dequeue (Rev1.click_play [verse_A; verse_B] Rev1.initial)))
  /\ (1 <= 1)%nat.
Proof.
  assert (H : Rev1.env_step
                (Rev1.click_play [verse_A; verse_B] Rev1.initial)
                (Rev1.on_end (makeUtterance verse_A)
                   (Rev1.KPlay [(1%nat, makeUtterance verse_B)])
                   (Rev1.dequeue
                      (Rev1.click_play [verse_A; verse_B] Rev1.initial)))).
  { exists UtteranceEnd. split; reflexivity. }
  split; [exact H|].
  exact (proj1 env_turn_keeps_count _ _ H).
Defined.

Lemma r1_test_runs (index : nat) (verse : Verse) (s0 : Rev1.state) :
  Rev1.idle s0 ->
  exists s,
    Rev1.env_reach (Rev1.click_test index verse s0) s
    /\ Rev1.in_flight s = 0%nat
    /\ Rev1.isPlaying s = true
    /\ Rev1.currentVerse s = -1
    /\ Rev1.log s
       = Rev1.log s0
           ++ [SetIsPlaying true; SetCurrentVerse (Z.of_nat index);
               Speak (utterance (makeUtterance verse));
               Ended (utterance (makeUtterance verse));
               SetTimeout (Rev1.next_timer s0) (pause verse);
               SetCurrentVerse (-1); Fired (Rev1.next_timer s0)].
Proof.
  intros (Hq & Ht & Hc).
  set (info := makeUtterance verse).
  set (s1 := Rev1.click_test index verse s0).
  assert (E1 : s1 = Rev1.mkState true (Z.of_nat index) (Rev1.currentTimeout s0)
                      [(info, Rev1.KTest)] [] (Rev1.next_timer s0)
                      ((Rev1.log s0 ++ [SetIsPlaying true])
                         ++ [SetCurrentVerse (Z.of_nat index);
                             Speak (utterance info)])).
  { unfold s1, Rev1.click_test, Rev1.speak. cbn. now rewrite Hq, Ht. }
  set (s2 := Rev1.on_end info Rev1.KTest (Rev1.dequeue s1)).
  set (s3 := Rev1.fire (Rev1.next_timer s0) s2).
  exists s3. split; [|split; [|split; [|split]]].
  - apply rt1n_trans with (y := s2).
    { exists UtteranceEnd. split; [reflexivity|].
      unfold s2. rewrite E1. reflexivity. }
    apply rt1n_trans with (y := s3); [|apply rt1n_refl].
    exists (TimerFire (Rev1.next_timer s0)). split; [reflexivity|].
    unfold s3, s2, Rev1.on_end, Rev1.dequeue. rewrite E1.
    unfold Rev1.step. cbn [Rev1.timers find Rev1.tid Rev1.next_timer app].
    rewrite Z.eqb_refl. reflexivity.
  - unfold s3, s2, Rev1.fire, Rev1.on_end, Rev1.dequeue, Rev1.in_flight.
    rewrite E1. cbn. now rewrite Z.eqb_refl.
  - unfold s3, s2. rewrite E1. reflexivity.
  - unfold s3, s2. rewrite E1. reflexivity.
  - unfold s3, s2, Rev1.fire, Rev1.on_end, Rev1.dequeue. rewrite E1. cbn.
    rewrite <- !app_assoc. reflexivity.
Qed.

Lemma sg_test_runs (rev : revision) (index : nat) (verse : Verse)
    (infos : list UtteranceInfo) (s0 : Seg.state) :
  Seg.idle rev s0 ->
  makeUtterances rev verse = Some infos ->
  exists s,
    Seg.env_reach rev (Seg.click_test rev index verse s0) s
    /\ Seg.in_flight s = 0%nat
    /\ Seg.isPlaying s
       = match rev with part_001 => true | part_002 => false end
    /\ Seg.currentVerse s = -1
    /\ Seg.log s
       = Seg.log s0
           ++ [SetIsPlaying true; SetCurrentVerse (Z.of_nat index)]
           ++ Seg.parts_log (Seg.next_timer s0) infos
           ++ match rev with
              | part_001 => [SetCurrentVerse (-1)]
              | part_002 => [SetIsPlaying false; SetCurrentVerse (-1)]
              end.
Proof.
  intros (Hq & Ht & Hc & Hp) Hm.
  destruct infos as [|info more];
    [destruct (@makeUtterances_not_nil rev _ Hm)|].
  set (s1 := Seg.setCurrentVerse (Z.of_nat index) (Seg.setIsPlaying true s0)).
  destruct (@sg_parts_run rev Seg.KTest more info s1) as [ct Hrun];
    [exact Hq|exact Ht|].
  assert (E : Seg.click_test rev index verse s0
              = Seg.speak_part info (Seg.KSeg more Seg.KTest) s1).
  { unfold Seg.click_test. now rewrite Hp, Hm. }
  rewrite E. eexists. split; [exact Hrun|].
  destruct rev; cbn; rewrite <- !app_assoc; cbn; auto.
Qed.

(** X10.  The Test button of a card, clicked when nothing is pending:
    the verse is spoken, its pause runs, and then nothing is pending and
    no card is highlighted.  [index.tsx] and [part_001] leave playing
    on for good; [part_002] turns it off when the pause is over.  In
    the later revisions a verse without text ends the handler after
    playing was turned on: nothing is spoken, and in [part_002] Play
    and Test stay disabled. *)
Theorem test_button (index : nat) (verse : Verse) :
  (forall s0, Rev1.idle s0 ->
     exists s,
       Rev1.env_reach (Rev1.click_test index verse s0) s
       /\ Rev1.in_flight s = 0%nat
       /\ Rev1.isPlaying s = true
       /\ Rev1.currentVerse s = -1
       /\ Rev1.log s
          = Rev1.log s0
              ++ [SetIsPlaying true; SetCurrentVerse (Z.of_nat index);
                  Speak (utterance (makeUtterance verse));
                  Ended (utterance (makeUtterance verse));
                  SetTimeout (Rev1.next_timer s0) (pause verse);
                  SetCurrentVerse (-1); Fired (Rev1.next_timer s0)])
  /\ (forall rev infos s0,
        Seg.idle rev s0 ->
        makeUtterances rev verse = Some infos ->
        exists s,
          Seg.env_reach rev (Seg.click_test rev index verse s0) s
          /\ Seg.in_flight s = 0%nat
          /\ Seg.isPlaying s
             = match rev with part_001 => true | part_002 => false end
          /\ Seg.currentVerse s = -1
          /\ Seg.log s
             = Seg.log s0
                 ++ [SetIsPlaying true; SetCurrentVerse (Z.of_nat index)]
                 ++ Seg.parts_log (Seg.next_timer s0) infos
                 ++ match rev with
                    | part_001 => [SetCurrentVerse (-1)]
                    | part_002 => [SetIsPlaying false; SetCurrentVerse (-1)]
                    end)
  /\ (forall rev s0,
        Seg.idle rev s0 ->
        text verse = None ->
        Seg.click_test rev index verse s0 = Seg.setIsPlaying true s0
        /\ forall again i v,
             Seg.step part_002 (Seg.setIsPlaying true s0) (ClickPlay again)
             = Some (Seg.setIsPlaying true s0)
             /\ Seg.step part_002 (Seg.setIsPlaying true s0) (ClickTest i v)
                = Some (Seg.setIsPlaying true s0)).
Proof.
  split; [|split].
  - intros s0. apply r1_test_runs.
  - intros rev infos s0. apply sg_test_runs.
  - intros rev s0 (_ & _ & _ & Hp) Ht. split.
    + unfold Seg.click_test, makeUtterances. now rewrite Hp, Ht.
    + intros again i v. split; reflexivity.
Qed.

Lemma test_button_witness :
  Rev1.idle Rev1.initial
  /\ Seg.idle part_002 Seg.initial
  /\ makeUtterances part_002 verse_A = Some [makeUtterance verse_A]
  /\ text empty_object = None
  /\ (exists s,
        Rev1.env_reach (Rev1.click_test 0 verse_A Rev1.initial) s
        /\ Rev1.in_flight s = 0%nat
        /\ Rev1.isPlaying s = true)
  /\ Seg.click_test part_002 0 empty_object Seg.initial
     = Seg.setIsPlaying true Seg.initial.
Proof.
  assert (I1 : Rev1.idle Rev1.initial) by (repeat split).
  assert (I2 : Seg.idle part_002 Seg.initial) by (repeat split).
  split; [exact I1|]. split; [exact I2|]. split; [reflexivity|].
  split; [reflexivity|]. split.
  - destruct (proj1 (test_button 0 verse_A) Rev1.initial I1)
      as (s & H1 & H2 & H3 & _).
    exists s. auto.
  - exact (proj1 (proj2 (proj2 (test_button 0 empty_object))
                    part_002 Seg.initial I2 eq_refl)).
Defined.

Lemma sg_chain_log_abort (rev : revision) (before : list Verse)
    (verse : Verse) (rest : list Verse) :
  Forall (fun v => text v <> None) before ->
  text verse = None ->
  forall id index,
    exists l,
      Seg.chain_log rev id index (before ++ verse :: rest)
      = l ++ [ConsoleLog "TypeError"; SetIsPlaying false]
      /\ speaks l = flat_map (verse_utterances rev) before.
Proof.
  intros Hb Hv. induction Hb as [|b before Hbt _ IH]; intros id index.
  - exists []. cbn. unfold makeUtterances. rewrite Hv. auto.
  - cbn [app Seg.chain_log flat_map]. unfold verse_utterances at 1.
    destruct (makeUtterances rev b) as [infos|] eqn:E.
    + destruct (IH (id + Z.of_nat (List.length infos)) (S index))
        as (l & El & Es).
      exists (SetCurrentVerse (Z.of_nat index)
                :: Seg.parts_log id infos ++ SetCurrentVerse (-1) :: l).
      split.
      * rewrite El. cbn. f_equal. now rewrite <- app_assoc.
      * cbn [speaks]. rewrite speaks_app, sg_speaks_parts. cbn [speaks].
        now rewrite Es.
    + unfold makeUtterances in E. destruct (text b); [discriminate|].
      contradiction.
Qed.

(** X11.  In [part_001] and [part_002] a verse object without a text
    ends the run of [play]: the verses before it are spoken, the
    [TypeError] of [makeUtterances] is logged, playing is turned off,
    and the verses after it are never spoken.  ([index.tsx] speaks such
    a verse as a space and goes on.) *)
Theorem missing_text_ends_run (rev : revision) (before : list Verse)
    (verse : Verse) (rest : list Verse) (s0 : Seg.state) :
  Seg.idle rev s0 ->
  Forall (fun v => text v <> None) before ->
  text verse = None ->
  exists s l,
    Seg.env_reach rev (Seg.click_play rev (before ++ verse :: rest) s0) s
    /\ Seg.in_flight s = 0%nat
    /\ Seg.isPlaying s = false
    /\ Seg.log s
       = Seg.log s0
           ++ SetIsPlaying true
           :: l ++ [ConsoleLog "TypeError"; SetIsPlaying false]
    /\ speaks l = flat_map (verse_utterances rev) before.
Proof.
  intros Hi Hb Hv.
  destruct (sg_play_sequential (before ++ verse :: rest) Hi)
    as [_ (s & Hr & Hl & Hq & Ht & Hp & _)].
  destruct (@sg_chain_log_abort rev before verse rest Hb Hv
              (Seg.next_timer s0) 0%nat) as (l & El & Es).
  exists s, l. split; [exact Hr|]. split.
  - unfold Seg.in_flight. now rewrite Hq, Ht.
  - split; [exact Hp|]. split; [|exact Es].
    rewrite Hl. unfold Seg.play_log. now rewrite El.
Qed.

Lemma missing_text_ends_run_witness :
  Seg.idle part_001 Seg.initial
  /\ Forall (fun v => text v <> None) [verse_A]
  /\ text empty_object = None
  /\ exists s l,
       Seg.env_reach part_001
         (Seg.click_play part_001 [verse_A; empty_object; verse_B] Seg.initial)
         s
       /\ Seg.in_flight s = 0%nat
       /\ Seg.isPlaying s = false
       /\ Seg.log s
          = SetIsPlaying true
            :: l ++ [ConsoleLog "TypeError"; SetIsPlaying false]
       /\ speaks l = [mkUtterance "...A" 0.6 0.6].
Proof.
  assert (I : Seg.idle part_001 Seg.initial) by (repeat split).
  assert (F : Forall (fun v => text v <> None) [verse_A])
    by (repeat constructor; discriminate).
  split; [exact I|]. split; [exact F|]. split; [reflexivity|].
  exact (@missing_text_ends_run part_001 [verse_A] empty_object [verse_B]
           Seg.initial I F eq_refl).
Defined.

(** X12.  Stop in [index.tsx] while an utterance of a run of [play] is
    being spoken: the utterance goes on to its end, the timer of its
    pause is set and fires, and only then the run is over, with nothing
    pending, no card highlighted and playing off.  When verses are
    left, the next [speak] is rejected and ["Not playing"] is logged. *)
Theorem stop_while_speaking (verses : list Verse) (s0 s : Rev1.state)
    (info : UtteranceInfo) (k : Rev1.cont) :
  Rev1.idle s0 ->
  Rev1.env_reach (Rev1.click_play verses s0) s ->
  Rev1.queue s = [(info, k)] ->
  exists s',
    Rev1.env_reach (Rev1.click_stop s) s'
    /\ Rev1.in_flight s' = 0%nat
    /\ Rev1.isPlaying s' = false
    /\ Rev1.currentVerse s' = -1
    /\ Rev1.log s'
       = Rev1.log s
           ++ [SetIsPlaying false; ClearTimeout (Rev1.currentTimeout s);
               Ended (utterance info);
               SetTimeout (Rev1.next_timer s) (info_pause info);
               SetCurrentVerse (-1); Fired (Rev1.next_timer s)]
           ++ match k with
              | Rev1.KPlay (_ :: _) =>
                  [ConsoleLog "Not playing"; SetIsPlaying false]
              | _ => [SetIsPlaying false]
              end.
Proof.
  intros Hi Hr Hq.
  destruct (@r1_run_shape verses s0 s Hi Hr)
    as [before index info' rest _ Hq' Ht _ _|? ? ? _ Hq' _ _ _ _ _|Hq' _ _ _];
    rewrite Hq in Hq'; try discriminate Hq'.
  injection Hq' as -> ->.
  set (s1 := Rev1.click_stop s).
  assert (E1 : s1 = Rev1.mkState false (Rev1.currentVerse s)
                      (Rev1.currentTimeout s) [(info', Rev1.KPlay rest)] []
                      (Rev1.next_timer s)
                      ((Rev1.log s ++ [SetIsPlaying false])
                         ++ [ClearTimeout (Rev1.currentTimeout s)])).
  { unfold s1, Rev1.click_stop, Rev1.clearTimeout, Rev1.set_isPlaying. cbn.
    now rewrite Hq, Ht. }
  set (s2 := Rev1.on_end info' (Rev1.KPlay rest) (Rev1.dequeue s1)).
  set (s3 := Rev1.resume (Rev1.KPlay rest) (Rev1.fire (Rev1.next_timer s) s2)).
  exists s3. split; [|split; [|split; [|split]]].
  - apply rt1n_trans with (y := s2).
    { exists UtteranceEnd. split; [reflexivity|].
      unfold s2. rewrite E1. reflexivity. }
    apply rt1n_trans with (y := s3); [|apply rt1n_refl].
    exists (TimerFire (Rev1.next_timer s)). split; [reflexivity|].
    unfold s3, s2, Rev1.on_end, Rev1.dequeue. rewrite E1.
    unfold Rev1.step. cbn [Rev1.timers find Rev1.tid Rev1.next_timer app].
    rewrite Z.eqb_refl. reflexivity.
  - unfold s3, s2, Rev1.fire, Rev1.on_end, Rev1.dequeue, Rev1.in_flight.
    rewrite E1. destruct rest as [|[i j] rest]; cbn; now rewrite Z.eqb_refl.
  - unfold s3, s2. rewrite E1. destruct rest as [|[i j] rest]; reflexivity.
  - unfold s3, s2. rewrite E1. destruct rest as [|[i j] rest]; reflexivity.
  - unfold s3, s2, Rev1.fire, Rev1.on_end, Rev1.dequeue. rewrite E1.
    destruct rest as [|[i j] rest]; cbn; rewrite <- !app_assoc; reflexivity.
Qed.

Lemma stop_while_speaking_witness :
  Rev1.idle Rev1.initial
  /\ Rev1.env_reach (Rev1.click_play [verse_A; verse_B] Rev1.initial)
       (Rev1.click_play [verse_A; verse_B] Rev1.initial)
  /\ exists s',
       Rev1.env_reach
         (Rev1.click_stop (Rev1.click_play [verse_A; verse_B] Rev1.initial))
         s'
       /\ Rev1.in_flight s' = 0%nat
       /\ speaks (Rev1.log s') = [utterance (makeUtterance verse_A)].
Proof.
  assert (I : Rev1.idle Rev1.initial) by (repeat split).
  assert (R : Rev1.env_reach
                (Rev1.click_play [verse_A; verse_B] Rev1.initial)
                (Rev1.click_play [verse_A; verse_B] Rev1.initial))
    by apply rt1n_refl.
  split; [exact I|]. split; [exact R|].
  destruct (@stop_while_speaking [verse_A; verse_B] Rev1.initial _
              (makeUtterance verse_A)
              (Rev1.KPlay [(1%nat, makeUtterance verse_B)]) I R eq_refl)
    as (s' & H1 & H2 & _ & _ & H5).
  exists s'. split; [exact H1|]. split; [exact H2|].
  rewrite H5. reflexivity.
Defined.

Lemma has_first_part (rev : revision) (verse : Verse) :
  text verse <> None ->
  exists info more, makeUtterances rev verse = Some (info :: more).
Proof.
  intros H. destruct verse as [[t|] p]; [|contradiction].
  apply first_part.
Qed.

(** X13.  In [index.tsx] the flag [isPlaying.current] is the only thing
    that holds a stopped run back, and every run reads the same flag.
    Play, Stop and Play again while the first utterance is still being
    spoken: when that utterance has ended and its pause is over, the
    run that was stopped goes on with its second verse, beside the new
    run. *)
Theorem stopped_run_comes_back (a b : Verse) (rest : list Verse)
    (n : Verse) (ns : list Verse) :
  exists s,
    run Rev1.step Rev1.initial
      [ClickPlay (a :: b :: rest); ClickStop; ClickPlay (n :: ns);
       UtteranceEnd; TimerFire 1]
    = Some s
    /\ Rev1.isPlaying s = true
    /\ speaks (Rev1.log s)
       = [utterance (makeUtterance a); utterance (makeUtterance n);
          utterance (makeUtterance b)]
    /\ map fst (Rev1.queue s) = [makeUtterance n; makeUtterance b]
    /\ Rev1.currentVerse s = 1.
Proof. eexists. split; [reflexivity|]. cbn. auto. Qed.

(** X14.  In [part_001], [stop] clears the one timer that
    [currentTimeout] names.  Play clicked twice starts two runs; when
    the first utterance of each has ended, two timers are pending and
    Stop clears the later one only.  When the other one fires, the run
    it belongs to goes on speaking although playing is off. *)
Theorem stop_misses_a_timer (a b : Verse) (rest : list Verse) :
  text a <> None -> text b <> None ->
  exists s first more after u,
    makeUtterances part_001 a = Some (first :: more)
    /\ run (Seg.step part_001) Seg.initial
         [ClickPlay (a :: b :: rest); ClickPlay (a :: b :: rest);
          UtteranceEnd; UtteranceEnd; ClickStop; TimerFire 1]
       = Some s
    /\ Seg.isPlaying s = false
    /\ List.length (Seg.queue s) = 1%nat
    /\ Seg.log s
       = [SetIsPlaying true; SetCurrentVerse 0; Speak (utterance first);
          SetIsPlaying true; SetCurrentVerse 0; Speak (utterance first);
          Ended (utterance first); SetTimeout 1 (info_pause first);
          Ended (utterance first); SetTimeout 2 (info_pause first);
          SetIsPlaying false; ClearTimeout 2; Cancel; SetCurrentVerse (-1);
          Fired 1]
           ++ after
    /\ speaks after = [u].
Proof.
  intros Ha Hb.
  destruct (has_first_part part_001 a Ha) as (ia & ma & Ea).
  destruct (has_first_part part_001 b Hb) as (ib & mb & Eb).
  unfold run, Seg.step, Seg.click_play, Seg.play. cbn [Seg.disables andb].
  cbn [Seg.play_from]. rewrite Ea.
  destruct ma as [|next ma].
  - eexists _, ia, [], _, _. split; [reflexivity|]. split.
    + cbn. rewrite Eb. reflexivity.
    + cbn. repeat split.
  - eexists _, ia, (next :: ma), _, _. split; [reflexivity|]. split.
    + cbn. reflexivity.
    + cbn. repeat split.
Qed.

Lemma stop_misses_a_timer_witness :
  text verse_A <> None /\ text verse_B <> None
  /\ exists s,
       run (Seg.step part_001) Seg.initial
         [ClickPlay [verse_A; verse_B]; ClickPlay [verse_A; verse_B];
          UtteranceEnd; UtteranceEnd; ClickStop; TimerFire 1]
       = Some s
       /\ Seg.isPlaying s = false
       /\ List.length (speaks (Seg.log s)) = 3%nat.
Proof.
  assert (Ha : text verse_A <> None) by discriminate.
  assert (Hb : text verse_B <> None) by discriminate.
  split; [exact Ha|]. split; [exact Hb|].
  destruct (@stop_misses_a_timer verse_A verse_B [] Ha Hb)
    as (s & first & more & after & u & _ & H1 & H2 & _ & H4 & H5).
  exists s. split; [exact H1|]. split; [exact H2|].
  rewrite H4, speaks_app, H5. reflexivity.
Defined.

(** X19.  In [part_002], whatever the clicks and the turns of the
    environment were: after a click on Stop nothing is pending and
    playing is off, nothing happens any more until the next click, and
    a click on Play starts a run. *)
Theorem stop_always_recovers (s : Seg.state) :
  Seg.reach part_002 Seg.initial s ->
  Seg.in_flight (Seg.click_stop part_002 s) = 0%nat
  /\ Seg.isPlaying (Seg.click_stop part_002 s) = false
  /\ (forall s', Seg.env_reach part_002 (Seg.click_stop part_002 s) s' ->
                 s' = Seg.click_stop part_002 s)
  /\ (forall verses,
        Seg.click_play part_002 verses (Seg.click_stop part_002 s)
        = Seg.play part_002 verses (Seg.click_stop part_002 s)).
Proof.
  intros Hr.
  assert (Hinv : Seg.one_run s).
  { apply one_run_reach with (s := Seg.initial); [|exact Hr].
    apply one_run_nothing; reflexivity. }
  destruct Hinv as (_ & H0 & Hid).
  assert (H : Seg.queue (Seg.click_stop part_002 s) = []
              /\ Seg.timers (Seg.click_stop part_002 s) = []
              /\ Seg.isPlaying (Seg.click_stop part_002 s) = false).
  { unfold Seg.click_stop. cbn [Seg.disables andb].
    destruct (Seg.isPlaying s) eqn:Hp; cbn [negb].
    - cbn. split; [reflexivity|]. split; [|reflexivity].
      now apply filter_current.
    - specialize (H0 eq_refl). unfold Seg.in_flight in H0.
      destruct (Seg.queue s), (Seg.timers s); cbn in H0; try lia. auto. }
  destruct H as (Hq & Ht & Hp). split; [|split; [exact Hp|split]].
  - unfold Seg.in_flight. now rewrite Hq, Ht.
  - intros s' Hs'. now apply (@sg_stuck_reach part_002).
  - intros verses. unfold Seg.click_play. now rewrite Hp, andb_false_r.
Qed.

Lemma stop_always_recovers_witness :
  Seg.reach part_002 Seg.initial
    (Seg.click_play part_002 [verse_A; verse_B] Seg.initial)
  /\ Seg.in_flight
       (Seg.click_stop part_002
          (Seg.click_play part_002 [verse_A; verse_B] Seg.initial))
     = 0%nat.
Proof.
  assert (R : Seg.reach part_002 Seg.initial
                (Seg.click_play part_002 [verse_A; verse_B] Seg.initial)).
  { eapply rt1n_trans; [|apply rt1n_refl].
    exists (ClickPlay [verse_A; verse_B]). reflexivity. }
  split; [exact R|].
  exact (proj1 (@stop_always_recovers _ R)).
Defined.

End SequencerMore.

(** ** Loading a page *)

Section LoadMore.
Variable compress : Page.payload -> string.
Variable decompress : string -> settled Page.decoded.


End LoadMore.


(** ** The cards during a run *)

Section CardMore.

Lemma card_of_index (j i : nat) :
  Card.highlighted (Z.of_nat j) i = Nat.eqb i j
  /\ Card.dimmed (Z.of_nat j) i = negb (Nat.eqb i j).
Proof.
  unfold Card.dimmed, Card.highlighted.
  replace (Z.of_nat j >? -1) with true by (symmetry; apply Z.gtb_lt; lia).
  destruct (Nat.eqb_spec i j) as [->|N].
  - now rewrite Z.eqb_refl.
  - replace (Z.of_nat j =? Z.of_nat i) with false
      by (symmetry; apply Z.eqb_neq; lia). auto.
Qed.

(** X16.  What the cards show during a run of [play] that nothing
    interferes with.  In [index.tsx], while an utterance is being
    spoken, the card of its verse is the highlighted one and every
    other card is dimmed, and during a pause all cards are alike,
    neither highlighted nor dimmed.  In [part_001] and [part_002],
    while a part of a verse is being spoken and while the timer of the
    pause after a part is pending (300 ms, or the pause of the verse),
    every card but the card of that verse is dimmed, and in [part_001]
    that card is the highlighted one; when nothing is pending no card
    is dimmed or highlighted. *)
Theorem cards_during_run (verses : list Verse) :
  (forall s0 s,
     Rev1.idle s0 -> Rev1.env_reach (Rev1.click_play verses s0) s ->
     (Rev1.queue s = [] ->
      forall i, Card.highlighted (Rev1.currentVerse s) i = false
                /\ Card.dimmed (Rev1.currentVerse s) i = false)
     /\ (forall info k, In (info, k) (Rev1.queue s) ->
           exists j verse,
             nth_error verses j = Some verse
             /\ info = makeUtterance verse
             /\ forall i,
                  Card.highlighted (Rev1.currentVerse s) i = Nat.eqb i j
                  /\ Card.dimmed (Rev1.currentVerse s) i
                     = negb (Nat.eqb i j)))
  /\ (forall rev s0 s,
        Seg.idle rev s0 ->
        Seg.env_reach rev (Seg.click_play rev verses s0) s ->
        (forall info k, In (info, k) (Seg.queue s) ->
           exists j verse t part,
             nth_error verses j = Some verse
             /\ text verse = Some t
             /\ In part (split comma t)
             /\ utterance info = mkUtterance (part_text rev part) 0.6 0.6
             /\ forall i,
                  Card.dimmed (Seg.currentVerse s) i = negb (Nat.eqb i j)
                  /\ (rev = part_001 ->
                      Card.highlighted (Seg.currentVerse s) i
                      = Nat.eqb i j))
        /\ (forall tm, In tm (Seg.timers s) ->
              exists j verse t,
                nth_error verses j = Some verse
                /\ text verse = Some t
                /\ (Seg.delay tm = Some segment_pause
                    \/ Seg.delay tm = pause verse)
                /\ forall i,
                     Card.dimmed (Seg.currentVerse s) i = negb (Nat.eqb i j)
                     /\ (rev = part_001 ->
                         Card.highlighted (Seg.currentVerse s) i
                         = Nat.eqb i j))
        /\ (Seg.queue s = [] -> Seg.timers s = [] ->
            forall i, Card.highlighted (Seg.currentVerse s) i = false
                      /\ Card.dimmed (Seg.currentVerse s) i = false)).
Proof.
  split.
  - intros s0 s Hi Hr.
    destruct (@r1_highlight verses s0 s Hi Hr) as [Hq He]. split.
    + intros E i. rewrite (He E). split; [|reflexivity].
      unfold Card.highlighted. apply Z.eqb_neq. lia.
    + intros info k Hin.
      destruct (Hq info k Hin) as (j & verse & Ec & En & Ei).
      exists j, verse. split; [exact En|]. split; [exact Ei|].
      intros i. rewrite Ec. apply card_of_index.
  - intros rev s0 s Hi Hr.
    destruct (@sg_highlight rev verses s0 s Hi Hr) as (Hq & Ht & He).
    split; [|split].
    + intros info k Hin.
      destruct (Hq info k Hin) as (j & verse & infos & Ec & En & Em & Hinfo).
      unfold makeUtterances in Em.
      destruct (text verse) as [t|] eqn:Et; [|discriminate].
      injection Em as <-.
      apply map_index_In in Hinfo. destruct Hinfo as (part & n & Hp & ->).
      exists j, verse, t, part. split; [exact En|]. split; [exact Et|].
      split; [exact Hp|]. split; [reflexivity|].
      intros i. rewrite Ec. split; [|intros _]; apply card_of_index.
    + intros tm Hin.
      destruct (Ht tm Hin)
        as (j & verse & infos & info & Ec & En & Em & Hinfo & Ed).
      unfold makeUtterances in Em.
      destruct (text verse) as [t|] eqn:Et; [|discriminate].
      injection Em as <-.
      apply map_index_In in Hinfo. destruct Hinfo as (part & n & Hp & ->).
      exists j, verse, t. split; [exact En|]. split; [exact Et|].
      split.
      * rewrite Ed. cbn [info_pause].
        destruct (Z.of_nat n =? _); [now right|now left].
      * intros i. rewrite Ec. split; [|intros _]; apply card_of_index.
    + intros Eq Etm i. rewrite (He Eq Etm). split; [|reflexivity].
      unfold Card.highlighted. apply Z.eqb_neq. lia.
Qed.

Lemma cards_during_run_witness :
  Rev1.idle Rev1.initial
  /\ Rev1.env_reach (Rev1.click_play [verse_A; verse_B] Rev1.initial)
       (Rev1.click_play [verse_A; verse_B] Rev1.initial)
  /\ exists j verse,
       nth_error [verse_A; verse_B] j = Some verse
       /\ makeUtterance verse_A = makeUtterance verse
       /\ forall i,
            Card.highlighted 0 i = Nat.eqb i j
            /\ Card.dimmed 0 i = negb (Nat.eqb i j).
Proof.
  assert (I : Rev1.idle Rev1.initial) by (repeat split).
  assert (R : Rev1.env_reach
                (Rev1.click_play [verse_A; verse_B] Rev1.initial)
                (Rev1.click_play [verse_A; verse_B] Rev1.initial))
    by apply rt1n_refl.
  split; [exact I|]. split; [exact R|].
  exact (proj2 (proj1 (cards_during_run [verse_A; verse_B]) Rev1.initial _ I R)
           (makeUtterance verse_A)
           (Rev1.KPlay [(1%nat, makeUtterance verse_B)])
           (or_introl eq_refl)).
Defined.

End CardMore.

(** ** The service worker *)

Section WorkerMore.

Lemma ends_with_split (suffix s : string) :
  Worker.ends_with suffix s = true ->
  exists before, s = (before ++ suffix)%string.
Proof.
  induction s as [|c s IH]; cbn [Worker.ends_with].
  - intros H. apply String.eqb_eq in H. subst. now exists "".
  - intros H. apply orb_true_iff in H. destruct H as [H|H].
    + apply String.eqb_eq in H. subst. now exists "".
    + destruct (IH H) as [before ->]. now exists (String c before).
Qed.

Lemma occurs_append (c : ascii) (a b : string) :
  occurs c (a ++ b)%string = (occurs c a + occurs c b)%nat.
Proof. induction a as [|x a IH]; cbn; [reflexivity|]. rewrite IH. lia. Qed.

Lemma ends_with_dot (suffix s : string) :
  Worker.ends_with suffix s = true ->
  (occurs "." suffix <= occurs "." s)%nat.
Proof.
  intros H. destruct (ends_with_split _ _ H) as [before ->].
  rewrite occurs_append. lia.
Qed.

Lemma ends_with_both (a b s : string) :
  Worker.ends_with a s = true -> Worker.ends_with b s = true ->
  Worker.ends_with a b = true \/ Worker.ends_with b a = true.
Proof.
  induction s as [|c s IH]; cbn [Worker.ends_with].
  - intros Ha Hb. apply String.eqb_eq in Ha, Hb. subst. now left.
  - intros Ha Hb. apply orb_true_iff in Ha, Hb.
    destruct Ha as [Ha|Ha].
    + apply String.eqb_eq in Ha. subst a. right.
      cbn [Worker.ends_with]. apply orb_true_iff. exact Hb.
    + destruct Hb as [Hb|Hb]; [|now apply IH].
      apply String.eqb_eq in Hb. subst b. left.
      cbn [Worker.ends_with]. apply orb_true_iff. now right.
Qed.

Lemma code_or_image (pathname : string) :
  Worker.is_code pathname && Worker.is_image pathname = false.
Proof.
  apply not_true_is_false. intros H. apply andb_true_iff in H.
  destruct H as [Hc Hi]. unfold Worker.is_code, Worker.is_image in *.
  repeat match goal with
         | H : _ || _ = true |- _ =>
             apply orb_true_iff in H; destruct H as [H|H]
         end;
    match goal with
    | Ha : Worker.ends_with ?a pathname = true,
      Hb : Worker.ends_with ?b pathname = true |- _ =>
        destruct (ends_with_both _ _ _ Ha Hb) as [E|E];
        vm_compute in E; discriminate E
    end.
Qed.

Lemma dotted_suffix (r d output : string) :
  open_dir d = true -> occurs "." output = 0%nat -> occurs "/" r = 0%nat ->
  Worker.ends_with (String "." r) (d ++ output) = false.
Proof.
  intros Hd Ho Hr. induction d as [|c d IH].
  - cbn [append]. apply not_true_is_false. intros H.
    apply ends_with_dot in H. cbn [occurs] in H.
    rewrite Ascii.eqb_refl in H. lia.
  - cbn [append Worker.ends_with]. apply orb_false_iff. split.
    + apply String.eqb_neq. intros E. injection E as Ec Er.
      destruct d as [|c' d'].
      * cbn in Hd. subst c. discriminate Hd.
      * assert (L : (0 < occurs "/" (String c' d'))%nat)
          by (apply open_dir_slash; [exact Hd|discriminate]).
        rewrite <- Er, occurs_append in Hr. lia.
    + apply IH. destruct d; [reflexivity|exact Hd].
Qed.

Lemma dot_free_segment (d output : string) :
  open_dir d = true -> occurs "." output = 0%nat ->
  Worker.defaultHandler (d ++ output)
  = (Worker.NetworkFirst, "/index.html").
Proof.
  intros Hd Ho. unfold Worker.defaultHandler, Worker.is_code, Worker.is_image.
  rewrite !(fun r => @dotted_suffix r d output Hd Ho) by reflexivity.
  cbn [orb].
  destruct (String.eqb_spec (d ++ output) "/index.html") as [E|_];
    [|reflexivity].
  pose proof (@dotted_suffix "html" d output Hd Ho eq_refl) as F.
  rewrite E in F. discriminate F.
Qed.

(** X17.  A path without a dot, as the path of a share link whose token
    has none, is handed to the network-first strategy with the [url] of
    [/index.html]. *)
Theorem worker_serves_app (pathname : string) :
  occurs "." pathname = 0%nat ->
  Worker.defaultHandler pathname = (Worker.NetworkFirst, "/index.html")
  /\ forall output page,
       occurs "." output = 0%nat ->
       Worker.defaultHandler
         (Page.pathname (Page.replaceState output page))
       = (Worker.NetworkFirst, "/index.html").
Proof.
  assert (G : forall p, occurs "." p = 0%nat ->
                        Worker.defaultHandler p
                        = (Worker.NetworkFirst, "/index.html")).
  { intros p Hp. unfold Worker.defaultHandler.
    assert (Hs : forall suffix,
               (0 < occurs "." suffix)%nat ->
               Worker.ends_with suffix p = false).
    { intros suffix Hpos. apply not_true_is_false. intros H.
      apply ends_with_dot in H. lia. }
    unfold Worker.is_code, Worker.is_image.
    rewrite !Hs by (cbn; lia). cbn [orb].
    destruct (String.eqb_spec p "/index.html") as [->|_];
      [discriminate Hp|reflexivity]. }
  intros H. split; [now apply G|].
  intros output page Ho. cbn [Page.replaceState Page.pathname].
  apply dot_free_segment; [apply dirname_open|exact Ho].
Qed.

Lemma worker_serves_app_witness :
  occurs "." "/om" = 0%nat
  /\ Worker.defaultHandler "/om" = (Worker.NetworkFirst, "/index.html").
Proof.
  split; [reflexivity|].
  exact (proj1 (@worker_serves_app "/om" eq_refl)).
Defined.

(** X18.  The default handler on any path: no path is both a script or
    style and an image; the cache-first strategy is chosen exactly for
    the paths that end like an image; the [url] handed on is the path
    of the request or [/index.html]; and handling the [url] that was
    handed on gives the same choice again. *)
Theorem worker_choice (pathname : string) :
  Worker.is_code pathname && Worker.is_image pathname = false
  /\ (fst (Worker.defaultHandler pathname) = Worker.CacheFirst
      <-> Worker.is_image pathname = true)
  /\ (snd (Worker.defaultHandler pathname) = pathname
      \/ snd (Worker.defaultHandler pathname) = "/index.html")
  /\ Worker.defaultHandler (snd (Worker.defaultHandler pathname))
     = Worker.defaultHandler pathname.
Proof.
  pose proof (code_or_image pathname) as D.
  unfold Worker.defaultHandler.
  destruct (Worker.is_code pathname) eqn:Ec;
    destruct (Worker.is_image pathname) eqn:Ei; try discriminate D;
    cbn [fst snd].
  - repeat split; try discriminate; auto. now rewrite Ec.
  - repeat split; auto. now rewrite Ec, Ei.
  - destruct (String.eqb pathname "/index.html") eqn:Ex; cbn [fst snd].
    + repeat split; try discriminate; auto. now rewrite Ec, Ei, Ex.
    + repeat split; try discriminate; auto.
Qed.

End WorkerMore.
